(** * Verification scripts of the web admin front end

    The repository holds three Playwright scripts
    (verify_lazy_loading.py, verify_mobile_products.py, verify_mobile_home.py).
    Each one is a straight-line [main] coroutine: it acquires a browser and a
    page, runs a block of awaited library calls and prints inside
    [try: ... except Exception as e: ... finally: ...], and is started with
    [asyncio.run(main())].

    The embedding below keeps that shape.  Every awaited library call is
    answered by an environment (the browser, the application under test and
    the file system), which either lets the call return or makes it raise.
    The coroutine is a function of that environment; it yields the events it
    performed, in order, and either returns or lets an exception escape.

    The scripts are run twice.  First ([run_of], [main]) on a standard
    output that accepts every line, where only awaited calls can raise.
    Then ([run_io], [main_io], [process]) in a world that also answers each
    [print], so that a print can raise inside the [try] suite or the
    [except] suite as it can in Python; [process_quiet] shows that the first
    runs are the second ones when standard output never fails. *)

From Stdlib Require Import String List ZArith Bool Arith Lia.
Import ListNotations.
Open Scope string_scope.
Open Scope list_scope.

(** ** Exceptions *)

(** The classes an exception raised by an awaited call can belong to.  The
    first three are the error kinds of the runner; [OtherException] stands for
    any further subclass of Python's [Exception] (an [OSError] from writing a
    file, say) and [NonException] for a [BaseException] outside [Exception]
    ([KeyboardInterrupt], [asyncio.CancelledError]). *)
Inductive exn_class : Type :=
| NavigationError
| AssertionError
| ElementNotFoundError
| OtherException
| NonException.

Record exn : Type := mkExn { exn_class_of : exn_class; exn_msg : string }.

(** [except Exception as e] : the clause matches every class derived from
    [Exception]. *)
Definition except_Exception (e : exn) : bool :=
  match exn_class_of e with
  | NonException => false
  | _ => true
  end.

(** ** Library calls *)

(** [get_by_role(role, name=..., exact=...)], on the page or chained on
    another locator. *)
Inductive locator : Type :=
| page_get_by_role (role : string) (name : option string) (exact : bool)
| locator_get_by_role (parent : locator)
                      (role : string) (name : option string) (exact : bool).

Record context_options : Type := mkContextOptions {
  viewport_width : Z;
  viewport_height : Z;
  is_mobile : bool;
  user_agent : string
}.

Inductive call : Type :=
| PlaywrightStart                                  (* async with async_playwright() as p *)
| PlaywrightStop                                   (* leaving the async with block *)
| Launch (headless : bool)                         (* p.chromium.launch(headless=...) *)
| NewContext (opts : context_options)              (* browser.new_context(...) *)
| BrowserNewPage                                   (* browser.new_page() *)
| ContextNewPage                                   (* context.new_page() *)
| Goto (url : string) (timeout : Z)                (* page.goto(url, timeout=...) *)
| ExpectVisible (l : locator) (timeout : option Z) (* expect(l).to_be_visible(timeout=...) *)
| Click (l : locator)                              (* l.click() *)
| Screenshot (path : string)                       (* page.screenshot(path=...) *)
| Close.                                           (* browser.close() *)

Inductive outcome : Type :=
| Returned
| Raised (e : exn).

(** ** Events and environments *)

Inductive event : Type :=
| EvCall (c : call) (o : outcome)   (* an awaited call and how it ended *)
| EvPrint (line : string)           (* a line written by print *)
| EvCaught (e : exn).               (* the except clause was entered with e *)

Definition trace : Type := list event.

(** The environment answers a call knowing everything that happened before. *)
Definition environment : Type := trace -> call -> outcome.

(** ** The coroutine monad: history in, new events and a result out *)

Inductive result (A : Type) : Type :=
| Ret (a : A)
| Exc (e : exn).
Arguments Ret {A} a.
Arguments Exc {A} e.

Definition M (A : Type) : Type := environment -> trace -> trace * result A.

Definition ret {A} (a : A) : M A := fun _ _ => ([], Ret a).

Definition bind {A B} (m : M A) (k : A -> M B) : M B :=
  fun env h =>
    match m env h with
    | (evs, Ret a) =>
        match k a env (h ++ evs) with
        | (evs', r) => (evs ++ evs', r)
        end
    | (evs, Exc e) => (evs, Exc e)
    end.

Declare Scope coroutine_scope.
Delimit Scope coroutine_scope with co.
Notation "m1 ;; m2" := (bind m1 (fun _ => m2))
  (at level 61, right associativity) : coroutine_scope.
Open Scope coroutine_scope.

Definition await (c : call) : M unit :=
  fun env h =>
    match env h c with
    | Returned => ([EvCall c Returned], Ret tt)
    | Raised e => ([EvCall c (Raised e)], Exc e)
    end.

(** [print(line)] on a standard output that accepts every line.  The
    runs in which standard output fails are those of [run_io] and [main_io]
    below, where a print asks the world as an awaited call does. *)
Definition print (line : string) : M unit :=
  fun _ _ => ([EvPrint line], Ret tt).

(** A statement of a block, and a block run top to bottom. *)
Inductive stmt : Type :=
| Await (c : call)
| Print (line : string).

Definition exec (s : stmt) : M unit :=
  match s with
  | Await c => await c
  | Print line => print line
  end.

Fixpoint block (stmts : list stmt) : M unit :=
  match stmts with
  | [] => ret tt
  | s :: rest => exec s ;; block rest
  end.

(** [try: body except Exception as e: handler e finally: final].  The
    finally clause always runs; an exception it raises replaces whatever was
    pending. *)
Definition try_except_finally
    (body : M unit) (handler : exn -> M unit) (final : M unit) : M unit :=
  fun env h =>
    let '(evs1, r1) := body env h in
    let '(evs2, r2) :=
      match r1 with
      | Ret _ => ([], r1)
      | Exc e =>
          if except_Exception e then
            let '(evs, r) := handler e env (h ++ evs1 ++ [EvCaught e]) in
            (EvCaught e :: evs, r)
          else ([], r1)
      end in
    let '(evs3, r3) := final env (h ++ evs1 ++ evs2) in
    (evs1 ++ evs2 ++ evs3,
     match r3 with
     | Exc e3 => Exc e3
     | Ret _ => r2
     end).

(** [async with async_playwright() as p: body].  Leaving the block stops the
    driver whether the body returned or raised, and never swallows the body's
    exception. *)
Definition async_with_playwright (body : M unit) : M unit :=
  fun env h =>
    match await PlaywrightStart env h with
    | (evs0, Exc e) => (evs0, Exc e)
    | (evs0, Ret _) =>
        let '(evs1, r1) := body env (h ++ evs0) in
        let '(evs2, r2) := await PlaywrightStop env (h ++ evs0 ++ evs1) in
        (evs0 ++ evs1 ++ evs2,
         match r2 with
         | Exc e2 => Exc e2
         | Ret _ => r1
         end)
    end.

(** [if __name__ == "__main__": asyncio.run(main())].  The script ends with
    status 0 when [main] returns; an exception that leaves [main] is re-raised
    by [asyncio.run], nothing catches it, and the interpreter ends with a
    non-zero status: 1 for an uncaught exception, 130 when it is a
    [KeyboardInterrupt].  It is written 1 here for every class; the
    properties only use whether the status is 0, except at sample runs whose
    exception derives from [Exception].  No script calls [sys.exit]. *)
Definition exit_status {A} (r : result A) : Z :=
  match r with
  | Ret _ => 0
  | Exc _ => 1
  end.

Definition asyncio_run (main : M unit) (env : environment) : trace * Z :=
  let '(evs, r) := main env [] in (evs, exit_status r).

(** f"❌ An error occurred: {e}" *)
Definition error_line (e : exn) : string :=
  ("❌ An error occurred: " ++ exn_msg e)%string.

(** ** The common shape of the three scripts *)

(** What differs from one script to the next: the calls awaited before the
    [try], the statements of the [try] suite, and the path of the screenshot
    taken in the [except] suite. *)
Record script : Type := mkScript {
  setup : list call;
  body : list stmt;
  error_screenshot : string
}.

(** The except suite: print the error, take the diagnostic screenshot. *)
Definition handler_of (s : script) (e : exn) : list stmt :=
  [ Print (error_line e);
    Await (Screenshot (error_screenshot s)) ].

(** The [try ... except ... finally] statement: the run proper. *)
Definition run_of (s : script) : M unit :=
  try_except_finally
    (block (body s))
    (fun e => block (handler_of s e))
    (block [Await Close]).

Fixpoint awaits (cs : list call) (k : M unit) : M unit :=
  match cs with
  | [] => k
  | c :: cs' => await c ;; awaits cs' k
  end.

Definition main_of (s : script) : M unit :=
  async_with_playwright (awaits (setup s) (run_of s)).

(** ** src/jules-scratch/verification/verify_lazy_loading.py *)

Module VerifyLazyLoading.

Definition success_screenshot : string :=
  "jules-scratch/verification/lazy_loading_success.png".
Definition error_screenshot : string :=
  "jules-scratch/verification/lazy_loading_error.png".

Definition try_suite : list stmt :=
  [ (* 1. Go to home page *)
    Await (Goto "http://localhost:5173/" 60000);
    Await (ExpectVisible
             (page_get_by_role "heading" (Some "Capture Every Moment") false)
             None);
    Print "✅ Home page loaded successfully.";
    (* 2. Navigate to Products page *)
    Await (Click (locator_get_by_role
                    (page_get_by_role "navigation" None false)
                    "link" (Some "Products") false));
    Await (ExpectVisible
             (page_get_by_role "heading" (Some "Products") true)
             None);
    Print "✅ Products page loaded successfully.";
    (* 3. Navigate to Login page *)
    Await (Click (page_get_by_role "link" (Some "Sign in") false));
    Await (ExpectVisible
             (page_get_by_role "heading" (Some "Sign In") false)
             None);
    Print "✅ Login page loaded successfully.";
    (* 4. Navigate to Admin login page *)
    Await (Goto "http://localhost:5173/admin/login" 60000);
    Await (ExpectVisible
             (page_get_by_role "heading" (Some "Admin Login") false)
             None);
    Print "✅ Admin login page loaded successfully.";
    (* Take a final screenshot *)
    Await (Screenshot success_screenshot);
    Print "📸 Screenshot taken. Verification successful!" ].

Definition main : M unit :=
  async_with_playwright (
    await (Launch true) ;;
    await BrowserNewPage ;;
    try_except_finally
      (block try_suite)
      (fun e => block [ Print (error_line e);
                        Await (Screenshot error_screenshot) ])
      (block [ Await Close ])).

Definition as_script : script :=
  mkScript [Launch true; BrowserNewPage] try_suite error_screenshot.

End VerifyLazyLoading.

(** The iPhone X context both mobile scripts create. *)
Definition iphone_x : context_options :=
  mkContextOptions 375 812 true
    "Mozilla/5.0 (iPhone; CPU iPhone OS 13_5 like Mac OS X) AppleWebKit/605.1.15 (KHTML, like Gecko) Version/13.1.1 Mobile/15E148 Safari/604.1".

(** ** src/jules-scratch/verification/verify_mobile_products.py *)

Module VerifyMobileProducts.

Definition screenshot_path : string :=
  "jules-scratch/verification/mobile_products_before.png".
Definition error_screenshot : string :=
  "jules-scratch/verification/mobile_products_error.png".

Definition try_suite : list stmt :=
  [ (* Go to products page *)
    Await (Goto "http://localhost:5174/products" 60000);
    (* Wait for the heading to be visible *)
    Await (ExpectVisible
             (page_get_by_role "heading" (Some "Products") true)
             (Some 30000%Z));
    Print "✅ Products page loaded successfully.";
    (* Take a screenshot *)
    Await (Screenshot screenshot_path);
    Print ("Screenshot saved to " ++ screenshot_path)%string ].

Definition main : M unit :=
  async_with_playwright (
    await (Launch true) ;;
    await (NewContext iphone_x) ;;
    await ContextNewPage ;;
    try_except_finally
      (block try_suite)
      (fun e => block [ Print (error_line e);
                        Await (Screenshot error_screenshot) ])
      (block [ Await Close ])).

Definition as_script : script :=
  mkScript [Launch true; NewContext iphone_x; ContextNewPage]
           try_suite error_screenshot.

End VerifyMobileProducts.

(** ** src/jules-scratch/phase2_verification/verify_mobile_home.py *)

Module VerifyMobileHome.

Definition screenshot_path : string :=
  "jules-scratch/phase2_verification/mobile_home_analysis.png".
Definition error_screenshot : string :=
  "jules-scratch/phase2_verification/mobile_home_error.png".

Definition try_suite : list stmt :=
  [ (* Go to home page *)
    Await (Goto "http://localhost:5173/" 60000);
    (* Wait for the main heading to be visible *)
    Await (ExpectVisible
             (page_get_by_role "heading" (Some "Capture Every Moment") false)
             (Some 30000%Z));
    Print "✅ Home page loaded successfully.";
    (* Take a screenshot *)
    Await (Screenshot screenshot_path);
    Print ("Screenshot saved to " ++ screenshot_path)%string ].

Definition main : M unit :=
  async_with_playwright (
    await (Launch true) ;;
    await (NewContext iphone_x) ;;
    await ContextNewPage ;;
    try_except_finally
      (block try_suite)
      (fun e => block [ Print (error_line e);
                        Await (Screenshot error_screenshot) ])
      (block [ Await Close ])).

Definition as_script : script :=
  mkScript [Launch true; NewContext iphone_x; ContextNewPage]
           try_suite error_screenshot.

End VerifyMobileHome.

(** The three scripts by name. *)
Inductive script_name : Type :=
| LazyLoading
| MobileProducts
| MobileHome.

Definition script_of (n : script_name) : script :=
  match n with
  | LazyLoading => VerifyLazyLoading.as_script
  | MobileProducts => VerifyMobileProducts.as_script
  | MobileHome => VerifyMobileHome.as_script
  end.

Definition main (n : script_name) : M unit :=
  match n with
  | LazyLoading => VerifyLazyLoading.main
  | MobileProducts => VerifyMobileProducts.main
  | MobileHome => VerifyMobileHome.main
  end.

(** The screenshot each script takes at the end of its [try] suite. *)
Definition success_screenshot (n : script_name) : string :=
  match n with
  | LazyLoading => VerifyLazyLoading.success_screenshot
  | MobileProducts => VerifyMobileProducts.screenshot_path
  | MobileHome => VerifyMobileHome.screenshot_path
  end.

(** ** Reading a trace *)


(** The event a statement leaves when it does not raise. *)
Definition ok_event (s : stmt) : event :=
  match s with
  | Await c => EvCall c Returned
  | Print line => EvPrint line
  end.


Definition is_close (ev : event) : bool :=
  match ev with
  | EvCall Close _ => true
  | _ => false
  end.

(** How many times [browser.close()] was awaited. *)
Definition close_calls (tr : trace) : nat := length (filter is_close tr).

(** The screenshot files on disk after the run: one per screenshot call that
    returned, in order. *)
Definition files_written (tr : trace) : list string :=
  flat_map (fun ev => match ev with
                      | EvCall (Screenshot p) Returned => [p]
                      | _ => []
                      end) tr.

(** The exceptions the except clause was entered with. *)
Definition caught (tr : trace) : list exn :=
  flat_map (fun ev => match ev with
                      | EvCaught e => [e]
                      | _ => []
                      end) tr.

(** The lines written to standard output. *)
Definition printed (tr : trace) : list string :=
  flat_map (fun ev => match ev with
                      | EvPrint line => [line]
                      | _ => []
                      end) tr.

(** The result left by a call outcome, and the result of a suite once a
    later call has been awaited after it. *)
Definition result_of_outcome (o : outcome) : result unit :=
  match o with
  | Returned => Ret tt
  | Raised e => Exc e
  end.

Definition and_then (r : result unit) (o : outcome) : result unit :=
  match o with
  | Returned => r
  | Raised e => Exc e
  end.

(** No statement of a try suite closes the browser or takes the error
    screenshot: both belong to the except and finally suites only. *)
Definition plain_step (s : script) (st : stmt) : bool :=
  match st with
  | Await Close => false
  | Await (Screenshot p) => negb (String.eqb p (error_screenshot s))
  | _ => true
  end.

Definition plain_suite (s : script) : Prop :=
  forallb (plain_step s) (body s) = true.

(** The try statement was entered: the page the steps run on was obtained. *)
Definition page_opened (tr : trace) : bool :=
  existsb (fun ev => match ev with
                     | EvCall BrowserNewPage Returned => true
                     | EvCall ContextNewPage Returned => true
                     | _ => false
                     end) tr.

(** Navigation, visibility assertions and clicks: the calls whose outcome
    depends on the application under test. *)
Definition is_page_step (c : call) : bool :=
  match c with
  | Goto _ _ | ExpectVisible _ _ | Click _ => true
  | _ => false
  end.

Definition screenshot_to (path : string) (c : call) : bool :=
  match c with
  | Screenshot p => String.eqb p path
  | _ => false
  end.

(** Some call satisfying [p] raised during the trace. *)
Definition raised_in (p : call -> bool) (tr : trace) : bool :=
  existsb (fun ev => match ev with
                     | EvCall c (Raised _) => p c
                     | _ => false
                     end) tr.

(** The calls awaited once a step error has been caught: the error
    screenshot, [browser.close()], and the stop of the driver. *)
Definition after_failure_call (s : script) (c : call) : bool :=
  screenshot_to (error_screenshot s) c
  || match c with
     | Close | PlaywrightStop => true
     | _ => false
     end.

(** The calls awaited during a trace, in order. *)
Definition calls_of (tr : trace) : list call :=
  flat_map (fun ev => match ev with
                      | EvCall c _ => [c]
                      | _ => []
                      end) tr.

(** The URLs navigated to, and the timeouts handed to the visibility
    assertions. *)
Definition goto_url (c : call) : list string :=
  match c with
  | Goto url _ => [url]
  | _ => []
  end.

Definition navigations (cs : list call) : list string :=
  flat_map goto_url cs.

Definition timeout_argument (c : call) : list (option Z) :=
  match c with
  | ExpectVisible _ t => [t]
  | _ => []
  end.

Definition assertion_timeouts (cs : list call) : list (option Z) :=
  flat_map timeout_argument cs.

(** The calls a suite awaits. *)
Definition suite_calls_of (stmts : list stmt) : list call :=
  calls_of (map ok_event stmts).

(** How long a visibility assertion waits: its [timeout] argument when one
    is given, the default of the library otherwise. *)
Definition assertion_wait (default : Z) (t : option Z) : Z :=
  match t with
  | Some ms => ms
  | None => default
  end.

(** The port of a URL of the form [scheme://host:port/path]. *)
Definition authority (url : string) : string :=
  let rest := match String.index 0 "://" url with
              | Some i => String.substring (i + 3) (String.length url) url
              | None => url
              end in
  match String.index 0 "/" rest with
  | Some j => String.substring 0 j rest
  | None => rest
  end.

Definition port_of (url : string) : option string :=
  let a := authority url in
  match String.index 0 ":" a with
  | Some k => Some (String.substring (k + 1) (String.length a) a)
  | None => None
  end.

(** The calls awaited before the [try] statement: the start of the driver
    and the calls that obtain the browser, the context and the page. *)
Definition is_pre_try (c : call) : bool :=
  match c with
  | PlaywrightStart | Launch _ | NewContext _
  | BrowserNewPage | ContextNewPage => true
  | _ => false
  end.

Definition is_driver_stop (c : call) : bool :=
  match c with
  | PlaywrightStop => true
  | _ => false
  end.

(** How many of the awaited calls satisfy [p], whatever their outcome. *)
Definition count_calls (p : call -> bool) (tr : trace) : nat :=
  length (filter p (calls_of tr)).

(** The driver was started: [async with async_playwright()] was entered. *)
Definition driver_started (tr : trace) : bool :=
  existsb (fun ev => match ev with
                     | EvCall PlaywrightStart Returned => true
                     | _ => false
                     end) tr.

(** The awaited calls of the [try] suite of a script: its page steps and its
    success screenshot. *)
Definition is_suite_call (n : script_name) (c : call) : bool :=
  is_page_step c || screenshot_to (success_screenshot n) c.

(** The lines the [try] suite prints when nothing raises, and the last of
    them, which announces the screenshot. *)
Definition progress_lines (s : script) : list string :=
  printed (map ok_event (body s)).

Definition final_line (n : script_name) : string :=
  last (progress_lines (script_of n)) "".

(** The progress lines that report a page as loaded start with a check
    mark; the error line starts with a cross. *)
Definition is_loaded_line (line : string) : bool :=
  String.prefix "✅" line.

Definition loaded_lines (tr : trace) : nat :=
  length (filter is_loaded_line (printed tr)).

(** The visibility assertions that passed. *)
Definition assertions_passed (tr : trace) : nat :=
  length (filter (fun ev => match ev with
                            | EvCall (ExpectVisible _ _) Returned => true
                            | _ => false
                            end) tr).

(** ** What an environment can be assumed to do *)



(** ** Sample environments *)

(** Everything works. *)
Definition env_all_ok : environment := fun _ _ => Returned.

(** The application answers, but no screenshot can be written. *)
Definition read_only_error : exn :=
  mkExn OtherException "[Errno 30] Read-only file system".

Definition env_read_only : environment :=
  fun _ c => match c with
             | Screenshot _ => Raised read_only_error
             | _ => Returned
             end.

(** No server listens on the port. *)
Definition connection_refused : exn :=
  mkExn NavigationError "Page.goto: net::ERR_CONNECTION_REFUSED".

Definition env_server_down : environment :=
  fun _ c => match c with
             | Goto _ _ => Raised connection_refused
             | _ => Returned
             end.

(** No server, and no screenshot can be written either. *)
Definition env_server_down_read_only : environment :=
  fun _ c => match c with
             | Goto _ _ => Raised connection_refused
             | Screenshot _ => Raised read_only_error
             | _ => Returned
             end.



(** The browser starts but refuses to open a page. *)
Definition no_page_error : exn :=
  mkExn OtherException "Browser.new_page: Target closed".

Definition env_no_page : environment :=
  fun _ c => match c with
             | BrowserNewPage | ContextNewPage => Raised no_page_error
             | _ => Returned
             end.

(** The user interrupts the script during the first navigation. *)
Definition keyboard_interrupt : exn := mkExn NonException "".

Definition env_interrupted : environment :=
  fun _ c => match c with
             | Goto _ _ => Raised keyboard_interrupt
             | _ => Returned
             end.

(** Everything works until the browser is closed. *)
Definition close_error : exn :=
  mkExn OtherException "Browser.close: Connection closed".

Definition env_close_fails : environment :=
  fun _ c => match c with
             | Close => Raised close_error
             | _ => Returned
             end.




(** ** The shapes a run can take *)

(** The [try] statement of a script ends in one of three ways: the suite ran
    to its end; statement [i] raised an [Exception] and the except suite ran;
    statement [i] raised something the except clause does not match.  In each
    of them [browser.close()] is awaited last. *)
Inductive run_shape (s : script) (env : environment) (h : trace) :
  trace -> result unit -> Prop :=
| run_completed (o : outcome) :
    run_shape s env h
      (map ok_event (body s) ++ [EvCall Close o])
      (and_then (Ret tt) o)
| run_caught (i : nat) (c : call) (e : exn) (o o' : outcome) :
    nth_error (body s) i = Some (Await c) ->
    env (h ++ map ok_event (firstn i (body s))) c = Raised e ->
    except_Exception e = true ->
    run_shape s env h
      (map ok_event (firstn i (body s))
         ++ [EvCall c (Raised e)]
         ++ [EvCaught e; EvPrint (error_line e);
             EvCall (Screenshot (error_screenshot s)) o]
         ++ [EvCall Close o'])
      (and_then (result_of_outcome o) o')
| run_uncaught (i : nat) (c : call) (e : exn) (o' : outcome) :
    nth_error (body s) i = Some (Await c) ->
    env (h ++ map ok_event (firstn i (body s))) c = Raised e ->
    except_Exception e = false ->
    run_shape s env h
      (map ok_event (firstn i (body s))
         ++ [EvCall c (Raised e)]
         ++ [EvCall Close o'])
      (and_then (Exc e) o').

(** The shapes of [main]: the driver did not start; a setup call raised
    before the [try]; the [try] statement ran. *)
Inductive main_shape (s : script) (env : environment) (h : trace) :
  trace -> result unit -> Prop :=
| main_no_driver (e : exn) :
    main_shape s env h [EvCall PlaywrightStart (Raised e)] (Exc e)
| main_setup_failed (i : nat) (c : call) (e : exn) (o2 : outcome) :
    nth_error (setup s) i = Some c ->
    main_shape s env h
      (EvCall PlaywrightStart Returned
         :: map (fun c => EvCall c Returned) (firstn i (setup s))
         ++ [EvCall c (Raised e)]
         ++ [EvCall PlaywrightStop o2])
      (and_then (Exc e) o2)
| main_ran (evs : trace) (r : result unit) (o2 : outcome) :
    run_shape s env
      (h ++ EvCall PlaywrightStart Returned
         :: map (fun c => EvCall c Returned) (setup s)) evs r ->
    main_shape s env h
      (EvCall PlaywrightStart Returned
         :: map (fun c => EvCall c Returned) (setup s)
         ++ evs
         ++ [EvCall PlaywrightStop o2])
      (and_then r o2).

(** ** The scripts on a standard output that can fail *)

(** In the scripts every [print] sits inside the [try] suite or the [except]
    suite, and writing to standard output can raise (a stream that cannot
    encode the line, a pipe closed by its reader).  Here a print is an
    action like an awaited call: the world answers it, and a print that
    raises inside the [try] suite is caught by [except Exception] like any
    step. *)
Inductive action : Type :=
| Do (c : call)            (* await a library call *)
| Write (line : string).   (* print(line) *)

Inductive io_event : Type :=
| Did (a : action) (o : outcome)   (* an action and how it ended *)
| Caught (e : exn).                (* the except clause was entered with e *)

Definition io_trace : Type := list io_event.

(** The browser, the application, the file system and standard output. *)
Definition world : Type := io_trace -> action -> outcome.

Definition IO (A : Type) : Type := world -> io_trace -> io_trace * result A.

Definition io_ret {A} (a : A) : IO A := fun _ _ => ([], Ret a).

Definition io_bind {A B} (m : IO A) (k : A -> IO B) : IO B :=
  fun w h =>
    match m w h with
    | (evs, Ret a) =>
        match k a w (h ++ evs) with
        | (evs', r) => (evs ++ evs', r)
        end
    | (evs, Exc e) => (evs, Exc e)
    end.

Definition perform (a : action) : IO unit :=
  fun w h =>
    match w h a with
    | Returned => ([Did a Returned], Ret tt)
    | Raised e => ([Did a (Raised e)], Exc e)
    end.

Definition action_of (s : stmt) : action :=
  match s with
  | Await c => Do c
  | Print line => Write line
  end.

Fixpoint block_io (stmts : list stmt) : IO unit :=
  match stmts with
  | [] => io_ret tt
  | s :: rest => io_bind (perform (action_of s)) (fun _ => block_io rest)
  end.

(** [try: body except Exception as e: handler e finally: final], as
    [try_except_finally]. *)
Definition try_except_finally_io
    (body : IO unit) (handler : exn -> IO unit) (final : IO unit) : IO unit :=
  fun w h =>
    let '(evs1, r1) := body w h in
    let '(evs2, r2) :=
      match r1 with
      | Ret _ => ([], r1)
      | Exc e =>
          if except_Exception e then
            let '(evs, r) := handler e w (h ++ evs1 ++ [Caught e]) in
            (Caught e :: evs, r)
          else ([], r1)
      end in
    let '(evs3, r3) := final w (h ++ evs1 ++ evs2) in
    (evs1 ++ evs2 ++ evs3,
     match r3 with
     | Exc e3 => Exc e3
     | Ret _ => r2
     end).

(** [async with async_playwright() as p: body], as [async_with_playwright]. *)
Definition async_with_playwright_io (body : IO unit) : IO unit :=
  fun w h =>
    match perform (Do PlaywrightStart) w h with
    | (evs0, Exc e) => (evs0, Exc e)
    | (evs0, Ret _) =>
        let '(evs1, r1) := body w (h ++ evs0) in
        let '(evs2, r2) := perform (Do PlaywrightStop) w (h ++ evs0 ++ evs1) in
        (evs0 ++ evs1 ++ evs2,
         match r2 with
         | Exc e2 => Exc e2
         | Ret _ => r1
         end)
    end.

(** The [try] statement and [main] of a script, and the process started by
    [asyncio.run(main())]. *)
Definition run_io (s : script) : IO unit :=
  try_except_finally_io
    (block_io (body s))
    (fun e => block_io (handler_of s e))
    (block_io [Await Close]).

Definition main_io (s : script) : IO unit :=
  async_with_playwright_io
    (io_bind (block_io (map Await (setup s))) (fun _ => run_io s)).

Definition process (n : script_name) (w : world) : io_trace * Z :=
  let '(tr, r) := main_io (script_of n) w [] in (tr, exit_status r).

(** *** Reading such a trace *)

(** What was observed before: the calls with their outcomes, the lines that
    did reach standard output, the catches.  A print that raised wrote
    nothing. *)
Definition seen (tr : io_trace) : trace :=
  flat_map (fun ev => match ev with
                      | Did (Do c) o => [EvCall c o]
                      | Did (Write line) Returned => [EvPrint line]
                      | Did (Write _) (Raised _) => []
                      | Caught e => [EvCaught e]
                      end) tr.


(** Some print raised. *)
Definition print_raised (tr : io_trace) : bool :=
  existsb (fun ev => match ev with
                     | Did (Write _) (Raised _) => true
                     | _ => false
                     end) tr.

(** What happened after the except clause was entered. *)
Fixpoint after_catch (tr : io_trace) : io_trace :=
  match tr with
  | [] => []
  | Caught _ :: rest => rest
  | _ :: rest => after_catch rest
  end.


(** The event a statement leaves when it does not raise. *)
Definition did_ok (s : stmt) : io_event := Did (action_of s) Returned.


(** *** Sample worlds *)

(** An environment of library calls with a standard output that accepts
    every line. *)
Definition quiet (env : environment) : world :=
  fun h a => match a with
             | Do c => env (seen h) c
             | Write _ => Returned
             end.

(** A standard output that encodes ASCII only: a line with any other
    character raises. *)
Definition is_ascii (line : string) : bool :=
  forallb (fun a => Nat.ltb (Ascii.nat_of_ascii a) 128)
          (list_ascii_of_string line).

Definition encode_error : exn :=
  mkExn OtherException "'ascii' codec can't encode character".

Definition ascii_stdout (env : environment) : world :=
  fun h a => match a with
             | Do c => env (seen h) c
             | Write line => if is_ascii line then Returned
                             else Raised encode_error
             end.

(** A standard output piped into a reader that leaves after the first
    line: every later print raises. *)
Definition broken_pipe : exn :=
  mkExn OtherException "[Errno 32] Broken pipe".

Definition closed_pipe (env : environment) : world :=
  fun h a => match a with
             | Do c => env (seen h) c
             | Write _ => match printed (seen h) with
                          | [] => Returned
                          | _ => Raised broken_pipe
                          end
             end.

(** *** The shapes of a run *)

(** The except suite either fails to print the error line, or prints it
    and attempts the error screenshot. *)
Inductive handler_shape (s : script) (e : exn) :
  io_trace -> result unit -> Prop :=
| handler_print_raised (e1 : exn) :
    handler_shape s e [Did (Write (error_line e)) (Raised e1)] (Exc e1)
| handler_printed (o : outcome) :
    handler_shape s e
      [Did (Write (error_line e)) Returned;
       Did (Do (Screenshot (error_screenshot s))) o]
      (result_of_outcome o).

(** As [run_shape], with a statement [st] that may be a print. *)
Inductive run_io_shape (s : script) (w : world) (h : io_trace) :
  io_trace -> result unit -> Prop :=
| io_completed (o : outcome) :
    run_io_shape s w h
      (map did_ok (body s) ++ [Did (Do Close) o])
      (and_then (Ret tt) o)
| io_caught (i : nat) (st : stmt) (e : exn)
            (hevs : io_trace) (hr : result unit) (o' : outcome) :
    nth_error (body s) i = Some st ->
    w (h ++ map did_ok (firstn i (body s))) (action_of st) = Raised e ->
    except_Exception e = true ->
    handler_shape s e hevs hr ->
    run_io_shape s w h
      (map did_ok (firstn i (body s))
         ++ [Did (action_of st) (Raised e)]
         ++ [Caught e]
         ++ hevs
         ++ [Did (Do Close) o'])
      (and_then hr o')
| io_uncaught (i : nat) (st : stmt) (e : exn) (o' : outcome) :
    nth_error (body s) i = Some st ->
    w (h ++ map did_ok (firstn i (body s))) (action_of st) = Raised e ->
    except_Exception e = false ->
    run_io_shape s w h
      (map did_ok (firstn i (body s))
         ++ [Did (action_of st) (Raised e)]
         ++ [Did (Do Close) o'])
      (and_then (Exc e) o').

Inductive main_io_shape (s : script) (w : world) :
  io_trace -> result unit -> Prop :=
| io_no_driver (e : exn) :
    main_io_shape s w [Did (Do PlaywrightStart) (Raised e)] (Exc e)
| io_setup_failed (i : nat) (c : call) (e : exn) (o2 : outcome) :
    nth_error (setup s) i = Some c ->
    main_io_shape s w
      (Did (Do PlaywrightStart) Returned
         :: map (fun c => Did (Do c) Returned) (firstn i (setup s))
         ++ [Did (Do c) (Raised e)]
         ++ [Did (Do PlaywrightStop) o2])
      (and_then (Exc e) o2)
| io_ran (h evs : io_trace) (r : result unit) (o2 : outcome) :
    run_io_shape s w h evs r ->
    main_io_shape s w
      (Did (Do PlaywrightStart) Returned
         :: map (fun c => Did (Do c) Returned) (setup s)
         ++ evs
         ++ [Did (Do PlaywrightStop) o2])
      (and_then r o2).

(** * Properties *)

Lemma main_unfold (n : script_name) : main n = main_of (script_of n).
Proof. destruct n; reflexivity. Qed.

(** ** Blocks *)

Section Blocks.

Variable env : environment.

Lemma await_cases (c : call) (h : trace) :
  (env h c = Returned /\ await c env h = ([EvCall c Returned], Ret tt)) \/
  (exists e, env h c = Raised e /\ await c env h = ([EvCall c (Raised e)], Exc e)).
Proof.
  unfold await. destruct (env h c) as [|e]; [left | right; exists e]; auto.
Qed.

Lemma block_print (line : string) (rest : list stmt) (h : trace) :
  block (Print line :: rest) env h =
  (EvPrint line :: fst (block rest env (h ++ [EvPrint line])),
   snd (block rest env (h ++ [EvPrint line]))).
Proof.
  cbn [block exec]. unfold bind, print.
  destruct (block rest env (h ++ [EvPrint line])) as [evs r]. reflexivity.
Qed.

Lemma block_await_returned (c : call) (rest : list stmt) (h : trace) :
  env h c = Returned ->
  block (Await c :: rest) env h =
  (EvCall c Returned :: fst (block rest env (h ++ [EvCall c Returned])),
   snd (block rest env (h ++ [EvCall c Returned]))).
Proof.
  intros H. cbn [block exec]. unfold bind, await. rewrite H.
  destruct (block rest env (h ++ [EvCall c Returned])) as [evs r]. reflexivity.
Qed.

Lemma block_await_raised (c : call) (rest : list stmt)
      (h : trace) (e : exn) :
  env h c = Raised e ->
  block (Await c :: rest) env h = ([EvCall c (Raised e)], Exc e).
Proof.
  intros H. cbn [block exec]. unfold bind, await. rewrite H. reflexivity.
Qed.

(** A block either runs all its statements, none of them raising, or stops
    at the first awaited call that raises. *)
Lemma block_cases (stmts : list stmt) (h : trace) :
  block stmts env h = (map ok_event stmts, Ret tt) \/
  exists i c e,
    nth_error stmts i = Some (Await c) /\
    env (h ++ map ok_event (firstn i stmts)) c = Raised e /\
    block stmts env h =
      (map ok_event (firstn i stmts) ++ [EvCall c (Raised e)], Exc e).
Proof.
  revert h. induction stmts as [|s rest IH]; intros h.
  - left. reflexivity.
  - destruct s as [c|line].
    + destruct (env h c) as [|e] eqn:Hc.
      * rewrite (block_await_returned _ _ _ Hc).
        destruct (IH (h ++ [EvCall c Returned])) as [Hok|(i & c' & e & Hn & He & Hb)].
        -- left. rewrite Hok. reflexivity.
        -- right. exists (S i), c', e. rewrite Hb.
           cbn [nth_error firstn map fst snd app].
           rewrite <- app_assoc in He. auto.
      * right. exists 0, c, e. cbn [nth_error firstn map app].
        rewrite app_nil_r. rewrite (block_await_raised _ _ _ _ Hc). auto.
    + rewrite block_print.
      destruct (IH (h ++ [EvPrint line])) as [Hok|(i & c' & e & Hn & He & Hb)].
      * left. rewrite Hok. reflexivity.
      * right. exists (S i), c', e. rewrite Hb.
        cbn [nth_error firstn map fst snd app].
        rewrite <- app_assoc in He. auto.
Qed.

Lemma block_single (c : call) (h : trace) :
  block [Await c] env h = ([EvCall c (env h c)], result_of_outcome (env h c)).
Proof.
  cbn [block exec]. unfold bind, await, ret.
  destruct (env h c); reflexivity.
Qed.

Lemma handler_runs (s : script) (e : exn) (h : trace) :
  exists o,
    block (handler_of s e) env h =
      ([EvPrint (error_line e); EvCall (Screenshot (error_screenshot s)) o],
       result_of_outcome o).
Proof.
  unfold handler_of. rewrite block_print, block_single.
  eexists. reflexivity.
Qed.

End Blocks.

(** ** The try statement and main follow their shapes *)

Lemma run_of_shape (s : script) (env : environment) (h : trace) :
  run_shape s env h (fst (run_of s env h)) (snd (run_of s env h)).
Proof.
  unfold run_of, try_except_finally.
  destruct (block_cases env (body s) h) as [Hok|(i & c & e & Hn & He & Hb)].
  - rewrite Hok, block_single. cbn [fst snd app].
    destruct (env _ Close) as [|e3]; apply (run_completed s).
  - rewrite Hb. destruct (except_Exception e) eqn:Hex.
    + destruct (handler_runs env s e
                  (h ++ (map ok_event (firstn i (body s))
                           ++ [EvCall c (Raised e)]) ++ [EvCaught e]))
        as [o Ho].
      rewrite Ho, block_single. cbn [fst snd].
      rewrite <- app_assoc.
      destruct (env _ Close) as [|e3] eqn:Hcl;
        [ apply (run_caught s env h i c e o Returned Hn He Hex)
        | apply (run_caught s env h i c e o (Raised e3) Hn He Hex) ].
    + rewrite block_single. cbn [fst snd app].
      rewrite <- app_assoc.
      destruct (env _ Close) as [|e3] eqn:Hcl;
        [ apply (run_uncaught s env h i c e Returned Hn He Hex)
        | apply (run_uncaught s env h i c e (Raised e3) Hn He Hex) ].
Qed.

Lemma awaits_cons (c : call) (cs : list call) (k : M unit)
      (env : environment) (h : trace) :
  awaits (c :: cs) k env h =
  match env h c with
  | Returned =>
      (EvCall c Returned :: fst (awaits cs k env (h ++ [EvCall c Returned])),
       snd (awaits cs k env (h ++ [EvCall c Returned])))
  | Raised e => ([EvCall c (Raised e)], Exc e)
  end.
Proof.
  cbn [awaits]. unfold bind, await. destruct (env h c) as [|e]; auto.
  destruct (awaits cs k env (h ++ [EvCall c Returned])); reflexivity.
Qed.

Lemma awaits_cases (cs : list call) (k : M unit)
      (env : environment) (h : trace) :
  awaits cs k env h =
    (map (fun c => EvCall c Returned) cs
       ++ fst (k env (h ++ map (fun c => EvCall c Returned) cs)),
     snd (k env (h ++ map (fun c => EvCall c Returned) cs))) \/
  exists i c e,
    nth_error cs i = Some c /\
    awaits cs k env h =
      (map (fun c => EvCall c Returned) (firstn i cs)
         ++ [EvCall c (Raised e)], Exc e).
Proof.
  revert h. induction cs as [|c cs IH]; intros h.
  - left. cbn [awaits map app]. rewrite app_nil_r.
    destruct (k env h); reflexivity.
  - rewrite awaits_cons. destruct (env h c) as [|e] eqn:Hc.
    + destruct (IH (h ++ [EvCall c Returned])) as [Hok|(i & c' & e & Hn & Hb)].
      * left. rewrite Hok. cbn [map app fst snd].
        rewrite <- app_assoc. reflexivity.
      * right. exists (S i), c', e. rewrite Hb. auto.
    + right. exists 0, c, e. auto.
Qed.

Lemma main_of_shape (s : script) (env : environment) (h : trace) :
  main_shape s env h (fst (main_of s env h)) (snd (main_of s env h)).
Proof.
  unfold main_of, async_with_playwright.
  destruct (await_cases env PlaywrightStart h) as [[_ H0]|(e & _ & H0)];
    rewrite H0; [| apply main_no_driver].
  destruct (awaits_cases (setup s) (run_of s) env (h ++ [EvCall PlaywrightStart Returned]))
    as [Hok|(i & c & e & Hn & Hb)].
  - rewrite Hok.
    pose proof (run_of_shape s env
                  ((h ++ [EvCall PlaywrightStart Returned])
                     ++ map (fun c => EvCall c Returned) (setup s))) as Hrun.
    destruct (run_of s env _) as [evs r]. cbn [fst snd] in *.
    destruct (await_cases env PlaywrightStop
                (h ++ [EvCall PlaywrightStart Returned]
                   ++ map (fun c => EvCall c Returned) (setup s) ++ evs))
      as [[_ H2]|(e2 & _ & H2)]; rewrite H2; cbn [fst snd app];
      rewrite <- app_assoc.
    + apply (main_ran s env h evs r Returned).
      rewrite <- app_assoc in Hrun. exact Hrun.
    + apply (main_ran s env h evs r (Raised e2)).
      rewrite <- app_assoc in Hrun. exact Hrun.
  - rewrite Hb.
    destruct (await_cases env PlaywrightStop
                (h ++ [EvCall PlaywrightStart Returned]
                   ++ map (fun c => EvCall c Returned) (firstn i (setup s))
                   ++ [EvCall c (Raised e)]))
      as [[_ H2]|(e2 & _ & H2)]; rewrite H2; cbn [fst snd app];
      rewrite <- app_assoc.
    + apply (main_setup_failed s env h i c e Returned Hn).
    + apply (main_setup_failed s env h i c e (Raised e2) Hn).
Qed.

(** ** Facts on traces *)

Lemma close_calls_app (a b : trace) :
  close_calls (a ++ b) = close_calls a + close_calls b.
Proof. unfold close_calls. now rewrite filter_app, length_app. Qed.

Lemma caught_app (a b : trace) : caught (a ++ b) = caught a ++ caught b.
Proof. apply flat_map_app. Qed.




Lemma caught_ok (stmts : list stmt) : caught (map ok_event stmts) = [].
Proof.
  induction stmts as [|[c|line] rest IH]; cbn; auto.
Qed.





(** ** Order of the steps *)


(** ** Teardown *)

Lemma scripts_have_plain_suites (n : script_name) : plain_suite (script_of n).
Proof. destruct n; reflexivity. Qed.

Lemma forallb_firstn {A} (p : A -> bool) (l : list A) (i : nat) :
  forallb p l = true -> forallb p (firstn i l) = true.
Proof.
  revert i. induction l as [|a l IH]; intros [|i] H; cbn in *; auto.
  apply andb_true_iff in H as [Ha Hl]. now rewrite Ha, IH.
Qed.

Lemma plain_events_no_close (s : script) (stmts : list stmt) :
  forallb (plain_step s) stmts = true ->
  close_calls (map ok_event stmts) = 0.
Proof.
  induction stmts as [|st rest IH]; cbn [forallb map]; intros H; auto.
  apply andb_true_iff in H as [Hst Hrest].
  change (close_calls (ok_event st :: map ok_event rest))
    with (close_calls ([ok_event st] ++ map ok_event rest)).
  rewrite close_calls_app, (IH Hrest).
  destruct st as [[]|]; cbn in *; auto; discriminate.
Qed.

Lemma failing_call_is_plain (s : script) (i : nat) (c : call) :
  plain_suite s -> nth_error (body s) i = Some (Await c) ->
  plain_step s (Await c) = true.
Proof.
  unfold plain_suite. intros Hp Hn.
  rewrite forallb_forall in Hp. apply Hp. eapply nth_error_In; eauto.
Qed.

(** Whatever the shape of the run, [browser.close()] is awaited once, and it
    is the last thing the run does. *)
Lemma run_shape_closes_once (s : script) (env : environment) (h : trace)
      (evs : trace) (r : result unit) :
  plain_suite s -> run_shape s env h evs r ->
  close_calls evs = 1 /\
  exists pre o, evs = pre ++ [EvCall Close o] /\ close_calls pre = 0.
Proof.
  intros Hp Hs. destruct Hs as [o|i c e o o' Hn _ Hex|i c e o' Hn _ Hex].
  - assert (H0 : close_calls (map ok_event (body s)) = 0)
      by (apply (plain_events_no_close s); exact Hp).
    split.
    + rewrite close_calls_app, H0. reflexivity.
    + exists (map ok_event (body s)), o. auto.
  - assert (H0 : close_calls (map ok_event (firstn i (body s))) = 0)
      by (apply (plain_events_no_close s), forallb_firstn; exact Hp).
    pose proof (failing_call_is_plain s i c Hp Hn) as Hc.
    assert (H1 : close_calls [EvCall c (Raised e)] = 0)
      by (destruct c; cbn in *; auto; discriminate).
    split.
    + rewrite !close_calls_app, H0, H1. reflexivity.
    + exists (map ok_event (firstn i (body s)) ++ [EvCall c (Raised e)]
                ++ [EvCaught e; EvPrint (error_line e);
                    EvCall (Screenshot (error_screenshot s)) o]), o'.
      split; [now rewrite <- !app_assoc|].
      rewrite !close_calls_app, H0, H1. reflexivity.
  - assert (H0 : close_calls (map ok_event (firstn i (body s))) = 0)
      by (apply (plain_events_no_close s), forallb_firstn; exact Hp).
    pose proof (failing_call_is_plain s i c Hp Hn) as Hc.
    assert (H1 : close_calls [EvCall c (Raised e)] = 0)
      by (destruct c; cbn in *; auto; discriminate).
    split.
    + rewrite !close_calls_app, H0, H1. reflexivity.
    + exists (map ok_event (firstn i (body s)) ++ [EvCall c (Raised e)]), o'.
      split; [now rewrite <- !app_assoc|].
      rewrite !close_calls_app, H0, H1. reflexivity.
Qed.

Lemma page_opened_app (a b : trace) :
  page_opened (a ++ b) = page_opened a || page_opened b.
Proof. apply existsb_app. Qed.

Lemma page_opened_cons (ev : event) (tr : trace) :
  page_opened (ev :: tr) = page_opened [ev] || page_opened tr.
Proof. apply (page_opened_app [ev] tr). Qed.

Lemma close_calls_cons (ev : event) (tr : trace) :
  close_calls (ev :: tr) = close_calls [ev] + close_calls tr.
Proof. apply (close_calls_app [ev] tr). Qed.

Lemma setup_opens_page (n : script_name) :
  page_opened (map (fun c => EvCall c Returned) (setup (script_of n))) = true.
Proof. destruct n; reflexivity. Qed.

Lemma partial_setup_has_no_page (n : script_name) (i : nat) (c : call) (e : exn) :
  nth_error (setup (script_of n)) i = Some c ->
  page_opened (map (fun c => EvCall c Returned) (firstn i (setup (script_of n)))
                 ++ [EvCall c (Raised e)]) = false /\
  close_calls (map (fun c => EvCall c Returned) (firstn i (setup (script_of n)))
                 ++ [EvCall c (Raised e)]) = 0.
Proof.
  destruct n; destruct i as [|[|[|i]]]; cbn; intros H;
    try discriminate;
    try (inversion H; subst; split; reflexivity);
    destruct i; discriminate.
Qed.

(** ** Which calls raised *)

Lemma raised_in_app (p : call -> bool) (a b : trace) :
  raised_in p (a ++ b) = raised_in p a || raised_in p b.
Proof. apply existsb_app. Qed.

Lemma raised_in_cons (p : call -> bool) (ev : event) (tr : trace) :
  raised_in p (ev :: tr) = raised_in p [ev] || raised_in p tr.
Proof. apply (raised_in_app p [ev] tr). Qed.

Lemma raised_in_ok (p : call -> bool) (stmts : list stmt) :
  raised_in p (map ok_event stmts) = false.
Proof.
  induction stmts as [|[c|line] rest IH]; cbn; auto.
Qed.

Lemma raised_in_failure (p : call -> bool) (pre : list stmt)
      (c : call) (e : exn) (rest : trace) :
  raised_in p (map ok_event pre ++ [EvCall c (Raised e)] ++ rest) = false ->
  p c = false.
Proof.
  rewrite !raised_in_app, raised_in_ok. cbn.
  destruct (p c); auto.
Qed.

(** Every awaited call of a try suite is a page step or the success
    screenshot. *)
Lemma suite_calls (n : script_name) (i : nat) (c : call) :
  nth_error (body (script_of n)) i = Some (Await c) ->
  is_page_step c = true \/ screenshot_to (success_screenshot n) c = true.
Proof.
  intros Hn. apply nth_error_In in Hn.
  assert (Hall : forallb (fun st => match st with
                                    | Await c => is_page_step c
                                                 || screenshot_to (success_screenshot n) c
                                    | Print _ => true
                                    end) (body (script_of n)) = true)
    by (destruct n; reflexivity).
  rewrite forallb_forall in Hall. specialize (Hall _ Hn). cbn in Hall.
  apply orb_true_iff in Hall. exact Hall.
Qed.

Lemma completed_files (n : script_name) (o : outcome) :
  files_written (map ok_event (body (script_of n)) ++ [EvCall Close o])
  = [success_screenshot n].
Proof. destruct n; reflexivity. Qed.

Lemma success_is_not_error (n : script_name) :
  success_screenshot n <> error_screenshot (script_of n).
Proof. destruct n; discriminate. Qed.


Lemma asyncio_run_unfold (m : M unit) (env : environment) :
  asyncio_run m env = (fst (m env []), exit_status (snd (m env []))).
Proof. unfold asyncio_run. destruct (m env []); reflexivity. Qed.


Lemma raised_in_returned (p : call -> bool) (cs : list call) :
  raised_in p (map (fun c => EvCall c Returned) cs) = false.
Proof. induction cs; cbn; auto. Qed.

Lemma caught_cons (ev : event) (tr : trace) :
  caught (ev :: tr) = caught [ev] ++ caught tr.
Proof. apply (caught_app [ev] tr). Qed.

Lemma suite_call_not_after_failure (n : script_name) (i : nat) (c : call) :
  nth_error (body (script_of n)) i = Some (Await c) ->
  after_failure_call (script_of n) c = false.
Proof.
  intros Hn. destruct (suite_calls n i c Hn) as [H|H].
  - destruct c; try discriminate; reflexivity.
  - destruct c; try discriminate. unfold after_failure_call. cbn in *.
    apply String.eqb_eq in H. subst path.
    apply orb_false_iff. split; [|reflexivity].
    apply String.eqb_neq. apply success_is_not_error.
Qed.

(** ** The single handler *)

Lemma raised_not_in_ok_events (c : call) (e : exn) (stmts : list stmt) :
  ~ In (EvCall c (Raised e)) (map ok_event stmts).
Proof.
  induction stmts as [|[c'|line] rest IH]; cbn; [tauto| |];
    intros [H|H]; try discriminate; auto.
Qed.




(** ** A failing error screenshot *)

Lemma setup_calls_not_after_failure (n : script_name) (i : nat) (c : call) :
  nth_error (setup (script_of n)) i = Some c ->
  after_failure_call (script_of n) c = false.
Proof.
  destruct n; destruct i as [|[|[|i]]]; cbn; intros H;
    try discriminate;
    try (inversion H; subst; reflexivity);
    destruct i; discriminate.
Qed.

(** C8.  For every script and environment: if, during [main], the
    screenshot taken by the except suite raises, then that failed screenshot
    is followed by exactly two more events, [browser.close()] and the stop of
    the driver; the browser was not closed before; and an exception leaves
    [main] (the exit status is not 0): the screenshot's own exception
    whenever the close and the stop of the driver return. *)
Theorem failing_error_screenshot_still_closes
    (n : script_name) (env : environment) :
  let tr := fst (main n env []) in
  let r := snd (main n env []) in
  raised_in (screenshot_to (error_screenshot (script_of n))) tr = true ->
  exists pre e' o' o2,
    tr = pre ++ [EvCall (Screenshot (error_screenshot (script_of n))) (Raised e');
                 EvCall Close o';
                 EvCall PlaywrightStop o2] /\
    close_calls pre = 0 /\
    r = and_then (and_then (Exc e') o') o2 /\
    (o' = Returned -> o2 = Returned -> r = Exc e') /\
    exit_status r <> 0%Z.
Proof.
  cbv zeta. rewrite main_unfold.
  destruct (main_of_shape (script_of n) env []) as [e|i c e o2 Hn|evs r o2 Hrun].
  - cbn. discriminate.
  - rewrite raised_in_cons, !raised_in_app, raised_in_returned.
    pose proof (setup_calls_not_after_failure n i c Hn) as Hc.
    unfold after_failure_call in Hc. apply orb_false_iff in Hc as [Hc _].
    cbn. rewrite Hc. destruct o2; cbn; discriminate.
  - rewrite raised_in_cons, !raised_in_app, raised_in_returned.
    destruct Hrun as [o|i c e o o' Hn _ _|i c e o' Hn _ _].
    + rewrite raised_in_app, raised_in_ok.
      destruct o, o2; cbn; discriminate.
    + pose proof (suite_call_not_after_failure n i c Hn) as Hc.
      unfold after_failure_call in Hc. apply orb_false_iff in Hc as [Hc Hc'].
      rewrite !raised_in_app, raised_in_ok. cbn. rewrite Hc.
      destruct o as [|e']; [destruct o', o2; cbn; discriminate|]. intros _.
      exists (EvCall PlaywrightStart Returned
                :: map (fun c => EvCall c Returned) (setup (script_of n))
                ++ map ok_event (firstn i (body (script_of n)))
                ++ [EvCall c (Raised e); EvCaught e; EvPrint (error_line e)]),
        e', o', o2.
      split; [|split; [|split; [|split]]].
      * cbn [app]. repeat (rewrite <- app_assoc; cbn [app]). reflexivity.
      * rewrite close_calls_cons, !close_calls_app.
        assert (Hs : close_calls (map (fun c => EvCall c Returned)
                                      (setup (script_of n))) = 0)
          by (destruct n; reflexivity).
        rewrite Hs, (plain_events_no_close (script_of n))
          by (apply forallb_firstn, scripts_have_plain_suites).
        destruct c; cbn in *; auto; discriminate.
      * reflexivity.
      * intros -> ->. reflexivity.
      * destruct o', o2; discriminate.
    + pose proof (suite_call_not_after_failure n i c Hn) as Hc.
      unfold after_failure_call in Hc. apply orb_false_iff in Hc as [Hc Hc'].
      rewrite !raised_in_app, raised_in_ok. cbn. rewrite Hc.
      destruct o', o2; cbn; discriminate.
Qed.

Lemma failing_error_screenshot_still_closes_witness :
  let tr := fst (main MobileHome env_server_down_read_only []) in
  let r := snd (main MobileHome env_server_down_read_only []) in
  exists pre e' o' o2,
    tr = pre ++ [EvCall (Screenshot (error_screenshot (script_of MobileHome)))
                        (Raised e');
                 EvCall Close o';
                 EvCall PlaywrightStop o2] /\
    close_calls pre = 0 /\
    r = and_then (and_then (Exc e') o') o2 /\
    (o' = Returned -> o2 = Returned -> r = Exc e') /\
    exit_status r <> 0%Z.
Proof.
  apply (failing_error_screenshot_still_closes MobileHome
           env_server_down_read_only).
  reflexivity.
Defined.

(** ** The scenarios *)

Lemma calls_of_app (a b : trace) : calls_of (a ++ b) = calls_of a ++ calls_of b.
Proof. apply flat_map_app. Qed.

Lemma In_firstn {A} (x : A) (l : list A) (i : nat) :
  In x (firstn i l) -> In x l.
Proof.
  revert i. induction l as [|a l IH]; intros [|i]; cbn; try tauto.
  intros [H|H]; eauto.
Qed.

Lemma calls_of_ok_events (c : call) (stmts : list stmt) :
  In c (calls_of (map ok_event stmts)) -> In (Await c) stmts.
Proof.
  induction stmts as [|[c'|line] rest IH]; cbn; try tauto.
  intros [H|H]; [left; congruence | right; auto].
Qed.

(** A page step that shows up in a run is a statement of the try suite. *)
Lemma page_steps_come_from_suite (s : script) (env : environment) (h : trace)
      (evs : trace) (r : result unit) (c : call) :
  run_shape s env h evs r ->
  In c (calls_of evs) -> is_page_step c = true -> In (Await c) (body s).
Proof.
  intros Hs Hin Hstep.
  destruct Hs as [o|i c0 e0 o o' Hn _ _|i c0 e0 o' Hn _ _];
    rewrite !calls_of_app in Hin; cbn in Hin;
    repeat (apply in_app_or in Hin as [Hin|Hin]);
    try (apply calls_of_ok_events in Hin; eauto using In_firstn; fail);
    cbn in Hin;
    repeat (destruct Hin as [Hin|Hin]; try (subst c; discriminate));
    try contradiction;
    subst c; eapply nth_error_In; eauto.
Qed.

Lemma Forall_flat_map {A B} (P : B -> Prop) (f : A -> list B) (l : list A) :
  (forall a, In a l -> Forall P (f a)) -> Forall P (flat_map f l).
Proof.
  induction l as [|a l IH]; cbn; intros H; [constructor|].
  apply Forall_app. split; [apply H; auto | apply IH; auto].
Qed.

(** In a run, a property of the page steps of the suite holds of the page
    steps that were executed. *)
Lemma run_calls_from_suite (P : call -> Prop) (n : script_name)
      (env : environment) (h : trace) :
  (forall c, is_page_step c = false -> P c) ->
  Forall P (suite_calls_of (body (script_of n))) ->
  Forall P (calls_of (fst (run_of (script_of n) env h))).
Proof.
  intros Hother Hsuite. apply Forall_forall. intros c Hin.
  destruct (is_page_step c) eqn:Hstep; [|auto].
  pose proof (page_steps_come_from_suite _ _ _ _ _ c
                (run_of_shape (script_of n) env h) Hin Hstep) as Hbody.
  rewrite Forall_forall in Hsuite. apply Hsuite.
  unfold suite_calls_of. clear -Hbody.
  induction (body (script_of n)) as [|st rest IH]; [contradiction|].
  destruct Hbody as [->|Hb]; [left; reflexivity|].
  destruct st; cbn; auto.
Qed.

(** Every run starts by navigating to the first URL of its suite. *)
Lemma first_navigation (n : script_name) (env : environment) (h : trace) :
  exists rest,
    navigations (calls_of (fst (run_of (script_of n) env h)))
    = match n with
      | MobileProducts => "http://localhost:5174/products"
      | _ => "http://localhost:5173/"
      end :: rest.
Proof.
  pose proof (run_of_shape (script_of n) env h) as Hs.
  destruct (run_of (script_of n) env h) as [evs r]. cbn [fst snd] in *.
  destruct Hs as [o|i c e o o' Hn _ _|i c e o' Hn _ _].
  - destruct n; eexists; reflexivity.
  - destruct n; destruct i as [|i]; cbn in Hn;
      try (inversion Hn; subst c); eexists; reflexivity.
  - destruct n; destruct i as [|i]; cbn in Hn;
      try (inversion Hn; subst c); eexists; reflexivity.
Qed.

(** Case analysis on the position [i] of the awaited call [c] that raised,
    in a suite of at most [k] statements; [tac] closes each case. *)
Tactic Notation "by_position" integer(k) ident(i) hyp(Hn) ident(c) tactic(tac) :=
  do k (destruct i as [|i];
        [cbn in Hn; try discriminate Hn; inversion Hn; subst c; tac|]);
  destruct i; discriminate Hn.

Lemma products_navigates_once (env : environment) (h : trace) :
  navigations (calls_of (fst (run_of (script_of MobileProducts) env h)))
  = ["http://localhost:5174/products"].
Proof.
  pose proof (run_of_shape (script_of MobileProducts) env h) as Hs.
  destruct (run_of (script_of MobileProducts) env h) as [evs r].
  cbn [fst snd] in *.
  destruct Hs as [o|i c e o o' Hn _ _|i c e o' Hn _ _];
    [reflexivity| |]; by_position 5 i Hn c reflexivity.
Qed.

(** C9.  For every environment and history, a run of the mobile-products
    script navigates to exactly one URL, http://localhost:5174/products,
    whose port is 5174; every navigation of a run of either other script
    goes to a URL under http://localhost:5173/, port 5173, the first one to
    http://localhost:5173/ itself. *)
Theorem mobile_products_uses_port_5174 (env : environment) (h : trace) :
  navigations (calls_of (fst (run_of (script_of MobileProducts) env h)))
    = ["http://localhost:5174/products"] /\
  port_of "http://localhost:5174/products" = Some "5174" /\
  forall n, n <> MobileProducts ->
    Forall (fun url => port_of url = Some "5173" /\
                       String.prefix "http://localhost:5173/" url = true)
           (navigations (calls_of (fst (run_of (script_of n) env h)))) /\
    hd_error (navigations (calls_of (fst (run_of (script_of n) env h))))
      = Some "http://localhost:5173/".
Proof.
  split; [apply products_navigates_once|]. split; [reflexivity|].
  intros n Hn. split.
  - apply Forall_flat_map. apply Forall_forall.
    apply (run_calls_from_suite
             (fun c => Forall (fun url => port_of url = Some "5173" /\
                                 String.prefix "http://localhost:5173/" url = true)
                              (goto_url c))).
    + intros c Hc. destruct c; try discriminate; constructor.
    + destruct n; [|contradiction|]; repeat constructor.
  - destruct (first_navigation n env h) as [rest Hrest]. rewrite Hrest.
    destruct n; [|contradiction|]; reflexivity.
Qed.

(** C10.  The four visibility assertions of the lazy-loading script carry no
    timeout argument; in every run each assertion that is executed carries
    none and so waits the default of the library, whatever that default is.
    The assertion of either mobile script carries a timeout of 30000 ms, and
    waits that long in every run. *)
Theorem lazy_loading_assertions_wait_the_default
    (default : Z) (env : environment) (h : trace) :
  assertion_timeouts (suite_calls_of VerifyLazyLoading.try_suite)
    = [None; None; None; None] /\
  Forall (fun t => t = None /\ assertion_wait default t = default)
         (assertion_timeouts
            (calls_of (fst (run_of (script_of LazyLoading) env h)))) /\
  forall n, n <> LazyLoading ->
    assertion_timeouts (suite_calls_of (body (script_of n)))
      = [Some 30000%Z] /\
    Forall (fun t => t = Some 30000%Z /\ assertion_wait default t = 30000%Z)
           (assertion_timeouts
              (calls_of (fst (run_of (script_of n) env h)))).
Proof.
  split; [reflexivity|]. split.
  - apply Forall_flat_map. apply Forall_forall.
    apply (run_calls_from_suite
             (fun c => Forall (fun t => t = None /\
                                        assertion_wait default t = default)
                              (timeout_argument c))).
    + intros c Hc. destruct c; try discriminate; constructor.
    + repeat constructor.
  - intros n Hn. split; [destruct n; [contradiction| |]; reflexivity|].
    apply Forall_flat_map. apply Forall_forall.
    apply (run_calls_from_suite
             (fun c => Forall (fun t => t = Some 30000%Z /\
                                        assertion_wait default t = 30000%Z)
                              (timeout_argument c))).
    + intros c Hc. destruct c; try discriminate; constructor.
    + destruct n; [contradiction| |]; repeat constructor.
Qed.



(** ** The three scripts when everything works *)

Example lazy_loading_all_ok :
  printed (fst (asyncio_run (main LazyLoading) env_all_ok))
    = [ "✅ Home page loaded successfully.";
        "✅ Products page loaded successfully.";
        "✅ Login page loaded successfully.";
        "✅ Admin login page loaded successfully.";
        "📸 Screenshot taken. Verification successful!" ] /\
  files_written (fst (asyncio_run (main LazyLoading) env_all_ok))
    = [ "jules-scratch/verification/lazy_loading_success.png" ] /\
  snd (asyncio_run (main LazyLoading) env_all_ok) = 0%Z.
Proof. vm_compute. auto. Qed.

Example mobile_products_server_down :
  fst (asyncio_run (main MobileProducts) env_server_down)
  = [ EvCall PlaywrightStart Returned;
      EvCall (Launch true) Returned;
      EvCall (NewContext iphone_x) Returned;
      EvCall ContextNewPage Returned;
      EvCall (Goto "http://localhost:5174/products" 60000)
             (Raised connection_refused);
      EvCaught connection_refused;
      EvPrint "❌ An error occurred: Page.goto: net::ERR_CONNECTION_REFUSED";
      EvCall (Screenshot "jules-scratch/verification/mobile_products_error.png")
             Returned;
      EvCall Close Returned;
      EvCall PlaywrightStop Returned ].
Proof. vm_compute. reflexivity. Qed.

(** * Further properties of the scripts *)

(** ** Counting calls *)

Lemma count_calls_app (p : call -> bool) (a b : trace) :
  count_calls p (a ++ b) = count_calls p a + count_calls p b.
Proof.
  unfold count_calls. now rewrite calls_of_app, filter_app, length_app.
Qed.

Lemma count_calls_cons (p : call -> bool) (ev : event) (tr : trace) :
  count_calls p (ev :: tr) = count_calls p [ev] + count_calls p tr.
Proof. apply (count_calls_app p [ev] tr). Qed.

Lemma calls_of_returned (cs : list call) :
  calls_of (map (fun c => EvCall c Returned) cs) = cs.
Proof.
  induction cs as [|c cs IH]; [reflexivity|].
  cbn [map]. change (calls_of (?ev :: ?tr)) with (calls_of ([ev] ++ tr)).
  rewrite calls_of_app, IH. reflexivity.
Qed.

Lemma filter_none {A} (p : A -> bool) (l : list A) :
  (forall a, In a l -> p a = false) -> filter p l = [].
Proof.
  induction l as [|a l IH]; cbn; intros H; [reflexivity|].
  rewrite (H a) by auto. apply IH. auto.
Qed.

Lemma is_suite_call_at (n : script_name) (i : nat) (c : call) :
  nth_error (body (script_of n)) i = Some (Await c) ->
  is_suite_call n c = true.
Proof.
  intros Hn. unfold is_suite_call. apply orb_true_iff. exact (suite_calls n i c Hn).
Qed.

(** A predicate that holds of no call of the suite counts nothing among the
    events of a prefix of the suite. *)
Lemma count_calls_suite_prefix (p : call -> bool) (n : script_name) (i : nat) :
  (forall c, is_suite_call n c = true -> p c = false) ->
  count_calls p (map ok_event (firstn i (body (script_of n)))) = 0.
Proof.
  intros Hp. unfold count_calls. rewrite filter_none; [reflexivity|].
  intros c Hin. apply Hp.
  apply calls_of_ok_events, In_firstn, In_nth_error in Hin as [j Hj].
  exact (is_suite_call_at n j c Hj).
Qed.

Lemma count_calls_suite (p : call -> bool) (n : script_name) :
  (forall c, is_suite_call n c = true -> p c = false) ->
  count_calls p (map ok_event (body (script_of n))) = 0.
Proof.
  intros Hp. rewrite <- (firstn_all (body (script_of n))).
  now apply count_calls_suite_prefix.
Qed.

Lemma suite_call_is_not_error_screenshot (n : script_name) (c : call) :
  is_suite_call n c = true ->
  screenshot_to (error_screenshot (script_of n)) c = false.
Proof.
  unfold is_suite_call. intros H. apply orb_true_iff in H as [H|H];
    destruct c; try discriminate; try reflexivity.
  cbn in *. apply String.eqb_eq in H. subst path.
  apply String.eqb_neq, success_is_not_error.
Qed.

Lemma suite_call_is_not_teardown (n : script_name) (c : call) :
  is_suite_call n c = true ->
  is_pre_try c = false /\ is_driver_stop c = false /\ c <> Close.
Proof.
  unfold is_suite_call. intros H. apply orb_true_iff in H as [H|H];
    destruct c; try discriminate; repeat split; discriminate.
Qed.

(** ** What the try suite has done when a call raises *)

(** The success screenshot is the last call the suite awaits: when a call
    raises, no file has been written yet. *)
Lemma no_file_before_failure (n : script_name) (i : nat) (c : call) :
  nth_error (body (script_of n)) i = Some (Await c) ->
  files_written (map ok_event (firstn i (body (script_of n)))) = [].
Proof.
  intros Hn. destruct n;
    [ by_position 14 i Hn c reflexivity
    | by_position 5 i Hn c reflexivity
    | by_position 5 i Hn c reflexivity ].
Qed.

(** The line that announces the screenshot is the last statement: when a
    call raises, it has not been printed. *)
Lemma no_final_line_before_failure (n : script_name) (i : nat) (c : call) :
  nth_error (body (script_of n)) i = Some (Await c) ->
  ~ In (final_line n) (printed (map ok_event (firstn i (body (script_of n))))).
Proof.
  intros Hn. destruct n;
    [ by_position 14 i Hn c ltac:(cbn; intuition discriminate)
    | by_position 5 i Hn c ltac:(cbn; intuition discriminate)
    | by_position 5 i Hn c ltac:(cbn; intuition discriminate) ].
Qed.

Lemma error_line_is_not_final (n : script_name) (e : exn) :
  error_line e <> final_line n.
Proof.
  unfold error_line. destruct n; cbn; discriminate.
Qed.

Lemma printed_cons (ev : event) (tr : trace) :
  printed (ev :: tr) = printed [ev] ++ printed tr.
Proof. apply (flat_map_app _ [ev] tr). Qed.

(** What a prefix of a suite prints is a prefix of what the suite prints. *)
Lemma printed_prefix (stmts : list stmt) (i : nat) :
  exists k, printed (map ok_event (firstn i stmts))
            = firstn k (printed (map ok_event stmts)).
Proof.
  revert i. induction stmts as [|st rest IH]; intros i.
  - exists 0. destruct i; reflexivity.
  - destruct i as [|i]; [exists 0; reflexivity|].
    destruct (IH i) as [k Hk]. cbn [firstn map].
    rewrite (printed_cons _ (map ok_event (firstn i rest))),
      (printed_cons _ (map ok_event rest)), Hk.
    destruct st as [c|line].
    + exists k. reflexivity.
    + exists (S k). reflexivity.
Qed.

Lemma printed_append (a b : trace) : printed (a ++ b) = printed a ++ printed b.
Proof. apply flat_map_app. Qed.

Lemma files_written_append (a b : trace) :
  files_written (a ++ b) = files_written a ++ files_written b.
Proof. apply flat_map_app. Qed.

Lemma failing_call_writes_nothing (c : call) (e : exn) :
  files_written [EvCall c (Raised e)] = [] /\
  printed [EvCall c (Raised e)] = [] /\
  caught [EvCall c (Raised e)] = [].
Proof. destruct c; repeat split; reflexivity. Qed.

(** ** Output and diagnostics *)

(** X4.  For every script, environment and history: if the last line of
    the suite, the one that announces the screenshot, was printed, then the
    whole suite ran without raising, the success screenshot is the one file
    written, and nothing was caught. *)
Theorem final_line_means_screenshot_written
    (n : script_name) (env : environment) (h : trace) :
  let evs := fst (run_of (script_of n) env h) in
  In (final_line n) (printed evs) ->
  files_written evs = [success_screenshot n] /\
  caught evs = [] /\
  exists o, evs = map ok_event (body (script_of n)) ++ [EvCall Close o].
Proof.
  cbv zeta. pose proof (run_of_shape (script_of n) env h) as Hs.
  destruct (run_of (script_of n) env h) as [evs r]. cbn [fst snd] in *.
  destruct Hs as [o|i c e o o' Hn _ _|i c e o' Hn _ _]; intros Hin.
  - rewrite completed_files, caught_app, caught_ok. eauto.
  - exfalso. destruct (failing_call_writes_nothing c e) as (_ & Hp & _).
    rewrite !printed_append, Hp in Hin. cbn in Hin.
    apply in_app_or in Hin as [Hin|[Hin|[]]].
    + exact (no_final_line_before_failure n i c Hn Hin).
    + exact (error_line_is_not_final n e Hin).
  - exfalso. destruct (failing_call_writes_nothing c e) as (_ & Hp & _).
    rewrite !printed_append, Hp in Hin. cbn in Hin.
    rewrite app_nil_r in Hin.
    exact (no_final_line_before_failure n i c Hn Hin).
Qed.

Lemma final_line_means_screenshot_written_witness :
  let evs := fst (run_of (script_of MobileProducts) env_all_ok []) in
  files_written evs = [success_screenshot MobileProducts] /\
  caught evs = [] /\
  exists o, evs = map ok_event (body (script_of MobileProducts))
                    ++ [EvCall Close o].
Proof.
  apply (final_line_means_screenshot_written MobileProducts env_all_ok []).
  vm_compute. auto 10.
Defined.

(** ** Errors the except clause does not match, and a failing close *)

(** A call of the suite that raised is the call the suite stopped at. *)
Lemma raised_suite_call_in_run (n : script_name) (c c0 : call) (e e0 : exn)
      (i : nat) (tail : trace) :
  is_suite_call n c = true ->
  In (EvCall c (Raised e))
     (map ok_event (firstn i (body (script_of n)))
        ++ [EvCall c0 (Raised e0)] ++ tail) ->
  (forall c' o, In (EvCall c' o) tail -> is_suite_call n c' = false) ->
  c = c0 /\ e = e0.
Proof.
  intros Hc Hin Htail.
  apply in_app_or in Hin as [Hin|[Hin|Hin]].
  - now apply raised_not_in_ok_events in Hin.
  - inversion Hin. auto.
  - apply Htail in Hin. congruence.
Qed.

Lemma handler_and_close_are_not_suite_calls (n : script_name) (e : exn)
      (o o' : outcome) (c' : call) (o'' : outcome) :
  In (EvCall c' o'')
     ([EvCaught e; EvPrint (error_line e);
       EvCall (Screenshot (error_screenshot (script_of n))) o]
        ++ [EvCall Close o']) ->
  is_suite_call n c' = false.
Proof.
  intros [H|[H|[H|[H|[]]]]]; try discriminate; inversion H; subst;
    destruct n; reflexivity.
Qed.

(** X3.  For every script, environment and history: when a call of the try
    suite raises an exception that does not derive from [Exception], the
    except suite does not run: nothing is caught, no error line is printed,
    the error screenshot is not attempted and no file is written; the
    browser is still closed, right after the failing call, and the exception
    leaves the try statement unless the close raises one of its own. *)
Theorem non_exception_skips_the_handler
    (n : script_name) (env : environment) (h : trace) (c : call) (e : exn) :
  let evs := fst (run_of (script_of n) env h) in
  let r := snd (run_of (script_of n) env h) in
  is_suite_call n c = true ->
  In (EvCall c (Raised e)) evs ->
  except_Exception e = false ->
  caught evs = [] /\
  count_calls (screenshot_to (error_screenshot (script_of n))) evs = 0 /\
  files_written evs = [] /\
  (exists k, printed evs = firstn k (progress_lines (script_of n))) /\
  exists pre o',
    evs = pre ++ [EvCall c (Raised e); EvCall Close o'] /\
    close_calls pre = 0 /\
    r = and_then (Exc e) o'.
Proof.
  cbv zeta. pose proof (run_of_shape (script_of n) env h) as Hs.
  destruct (run_of (script_of n) env h) as [evs r]. cbn [fst snd] in *.
  intros Hc Hin Hex.
  destruct Hs as [o|i c0 e0 o o' Hn _ Hex0|i c0 e0 o' Hn _ Hex0].
  - exfalso. apply in_app_or in Hin as [Hin|[Hin|[]]].
    + now apply raised_not_in_ok_events in Hin.
    + inversion Hin; subst c. destruct n; discriminate.
  - exfalso.
    destruct (raised_suite_call_in_run n c c0 e e0 i _ Hc Hin) as [-> ->].
    + intros c' o'' H.
      exact (handler_and_close_are_not_suite_calls n e0 o o' c' o'' H).
    + congruence.
  - destruct (raised_suite_call_in_run n c c0 e e0 i _ Hc Hin) as [-> ->].
    + intros c' o'' [H|[]]. inversion H. destruct n; reflexivity.
    + destruct (failing_call_writes_nothing c0 e0) as (Hf & Hp & Hcg).
      destruct (printed_prefix (body (script_of n)) i) as [k Hk].
      pose proof (suite_call_is_not_error_screenshot n) as Hsuite.
      split; [rewrite !caught_app, caught_ok, Hcg; reflexivity|].
      split.
      { rewrite !count_calls_app, (count_calls_suite_prefix _ n i Hsuite).
        unfold count_calls. cbn. now rewrite (Hsuite c0 Hc). }
      split; [rewrite !files_written_append, (no_file_before_failure n i c0 Hn), Hf;
              reflexivity|].
      split; [exists k; rewrite !printed_append, Hp, Hk; cbn;
              now rewrite app_nil_r|].
      exists (map ok_event (firstn i (body (script_of n)))), o'.
      split; [reflexivity|]. split; [|reflexivity].
      apply (plain_events_no_close (script_of n)), forallb_firstn,
        scripts_have_plain_suites.
Qed.

Lemma non_exception_skips_the_handler_witness :
  let evs := fst (run_of (script_of MobileHome) env_interrupted []) in
  let r := snd (run_of (script_of MobileHome) env_interrupted []) in
  caught evs = [] /\
  count_calls (screenshot_to (error_screenshot (script_of MobileHome))) evs = 0 /\
  files_written evs = [] /\
  (exists k, printed evs = firstn k (progress_lines (script_of MobileHome))) /\
  exists pre o',
    evs = pre ++ [EvCall (Goto "http://localhost:5173/" 60000)
                         (Raised keyboard_interrupt);
                  EvCall Close o'] /\
    close_calls pre = 0 /\
    r = and_then (Exc keyboard_interrupt) o'.
Proof.
  apply (non_exception_skips_the_handler MobileHome env_interrupted []).
  - reflexivity.
  - vm_compute. auto.
  - reflexivity.
Defined.

(** X7.  For every script, environment and history: when [browser.close()]
    raises, its exception is the one that leaves the try statement, whatever
    happened before, be it a suite that ran to its end with the success
    screenshot written, a caught error, or an exception raised by the except
    suite, which it replaces. *)
Theorem close_failure_decides_the_result
    (n : script_name) (env : environment) (h : trace) (e3 : exn) :
  let evs := fst (run_of (script_of n) env h) in
  let r := snd (run_of (script_of n) env h) in
  In (EvCall Close (Raised e3)) evs ->
  r = Exc e3.
Proof.
  cbv zeta. pose proof (run_of_shape (script_of n) env h) as Hs.
  destruct (run_of (script_of n) env h) as [evs r]. cbn [fst snd] in *.
  intros Hin.
  destruct Hs as [o|i c0 e0 o o' Hn _ _|i c0 e0 o' Hn _ _];
    (apply in_app_or in Hin as [Hin|Hin];
     [now apply raised_not_in_ok_events in Hin|]).
  - destruct Hin as [Hin|[]]. inversion Hin. reflexivity.
  - destruct Hin as [Hin|[Hin|[Hin|[Hin|[Hin|[]]]]]]; try discriminate.
    + inversion Hin; subst c0.
      destruct (suite_call_is_not_teardown n Close (is_suite_call_at n i _ Hn))
        as (_ & _ & Hne). now contradiction Hne.
    + inversion Hin. reflexivity.
  - destruct Hin as [Hin|[Hin|[]]].
    + inversion Hin; subst c0.
      destruct (suite_call_is_not_teardown n Close (is_suite_call_at n i _ Hn))
        as (_ & _ & Hne). now contradiction Hne.
    + inversion Hin. reflexivity.
Qed.

Lemma close_failure_decides_the_result_witness :
  files_written (fst (run_of (script_of LazyLoading) env_close_fails []))
    = [success_screenshot LazyLoading] /\
  snd (run_of (script_of LazyLoading) env_close_fails []) = Exc close_error.
Proof.
  split; [reflexivity|].
  apply (close_failure_decides_the_result LazyLoading env_close_fails []).
  vm_compute. auto 20.
Defined.

(** ** Before and after the try statement *)

Lemma raised_in_false (p : call -> bool) (tr : trace) :
  (forall c, In c (calls_of tr) -> p c = false) -> raised_in p tr = false.
Proof.
  induction tr as [|ev tr IH]; intros H; [reflexivity|].
  rewrite raised_in_cons, IH.
  - destruct ev as [c [|e]| |]; try reflexivity.
    cbn. rewrite (H c); [reflexivity|]. left. reflexivity.
  - intros c Hin. apply H.
    change (ev :: tr) with ([ev] ++ tr). rewrite calls_of_app.
    apply in_or_app. auto.
Qed.

Lemma count_calls_zero (p : call -> bool) (tr : trace) :
  (forall c, In c (calls_of tr) -> p c = false) -> count_calls p tr = 0.
Proof.
  intros H. unfold count_calls. now rewrite filter_none.
Qed.

Lemma count_calls_returned (p : call -> bool) (cs : list call) :
  count_calls p (map (fun c => EvCall c Returned) cs) = length (filter p cs).
Proof. unfold count_calls. now rewrite calls_of_returned. Qed.

(** The calls of a run are calls of the suite, the error screenshot and the
    browser close. *)
Lemma run_calls_kind (n : script_name) (env : environment) (h : trace)
      (evs : trace) (r : result unit) (c : call) :
  run_shape (script_of n) env h evs r ->
  In c (calls_of evs) ->
  is_suite_call n c = true \/
  c = Screenshot (error_screenshot (script_of n)) \/
  c = Close.
Proof.
  intros Hs Hin.
  destruct Hs as [o|i c0 e0 o o' Hn _ _|i c0 e0 o' Hn _ _];
    rewrite !calls_of_app in Hin;
    (apply in_app_or in Hin as [Hin|Hin];
     [ left;
       apply calls_of_ok_events in Hin;
       try apply In_firstn in Hin;
       apply In_nth_error in Hin as [j Hj];
       exact (is_suite_call_at n j c Hj)
     | ]);
    cbn in Hin;
    repeat (destruct Hin as [Hin|Hin]; [subst c; auto|]);
    try contradiction.
  - left. exact (is_suite_call_at n i c0 Hn).
  - left. exact (is_suite_call_at n i c0 Hn).
Qed.

Lemma run_awaits_nothing_else (p : call -> bool) (n : script_name)
      (env : environment) (h : trace) (evs : trace) (r : result unit) :
  run_shape (script_of n) env h evs r ->
  (forall c, is_suite_call n c = true -> p c = false) ->
  p (Screenshot (error_screenshot (script_of n))) = false ->
  p Close = false ->
  forall c, In c (calls_of evs) -> p c = false.
Proof.
  intros Hs Hsuite Hshot Hclose c Hin.
  destruct (run_calls_kind n env h evs r c Hs Hin) as [H|[H|H]];
    subst; auto.
Qed.

Lemma setup_calls_are_pre_try (n : script_name) (c : call) :
  In c (setup (script_of n)) -> is_pre_try c = true.
Proof.
  destruct n; cbn; intuition (subst; reflexivity).
Qed.

Lemma setup_prefix_has_no (p : call -> bool) (n : script_name) (i : nat) :
  (forall c, is_pre_try c = true -> p c = false) ->
  filter p (firstn i (setup (script_of n))) = [].
Proof.
  intros Hp. apply filter_none. intros c Hin.
  apply Hp, (setup_calls_are_pre_try n), (In_firstn _ _ i), Hin.
Qed.

Lemma pre_try_is_not_stop (c : call) :
  is_pre_try c = true -> is_driver_stop c = false.
Proof. destruct c; try discriminate; reflexivity. Qed.

(** X2.  For every script and environment: the driver is stopped exactly
    once when it was started, as the last event of [main], whether setup,
    the steps or the browser close raised or not; it is never stopped when
    it did not start. *)
Theorem driver_stopped_exactly_once (n : script_name) (env : environment) :
  let tr := fst (main n env []) in
  count_calls is_driver_stop tr = (if driver_started tr then 1 else 0) /\
  (driver_started tr = true ->
   exists pre o,
     tr = pre ++ [EvCall PlaywrightStop o] /\
     count_calls is_driver_stop pre = 0).
Proof.
  cbv zeta. rewrite main_unfold.
  destruct (main_of_shape (script_of n) env []) as [e|i c e o2 Hn|evs r o2 Hrun].
  - split; [reflexivity|discriminate].
  - assert (Hpre : count_calls is_driver_stop
                     (EvCall PlaywrightStart Returned
                        :: map (fun c => EvCall c Returned)
                               (firstn i (setup (script_of n)))
                        ++ [EvCall c (Raised e)]) = 0).
    { rewrite count_calls_cons, count_calls_app, count_calls_returned,
        (setup_prefix_has_no _ n i pre_try_is_not_stop).
      unfold count_calls. cbn.
      rewrite (pre_try_is_not_stop c); [reflexivity|].
      apply (setup_calls_are_pre_try n). eapply nth_error_In; eauto. }
    assert (Heq : EvCall PlaywrightStart Returned
                    :: map (fun c => EvCall c Returned)
                           (firstn i (setup (script_of n)))
                    ++ [EvCall c (Raised e)] ++ [EvCall PlaywrightStop o2]
                  = (EvCall PlaywrightStart Returned
                       :: map (fun c => EvCall c Returned)
                              (firstn i (setup (script_of n)))
                       ++ [EvCall c (Raised e)])
                    ++ [EvCall PlaywrightStop o2])
      by (cbn [app]; rewrite <- app_assoc; reflexivity).
    rewrite Heq. split.
    + rewrite count_calls_app, Hpre. reflexivity.
    + intros _. eexists; eexists. split; [reflexivity|exact Hpre].
  - assert (Hpre : count_calls is_driver_stop
                     (EvCall PlaywrightStart Returned
                        :: map (fun c => EvCall c Returned)
                               (setup (script_of n))
                        ++ evs) = 0).
    { rewrite count_calls_cons, count_calls_app, count_calls_returned.
      rewrite <- (firstn_all (setup (script_of n))),
        (setup_prefix_has_no _ n _ pre_try_is_not_stop).
      rewrite (count_calls_zero _ evs); [reflexivity|].
      apply (run_awaits_nothing_else _ n _ _ _ _ Hrun); try reflexivity.
      intros c Hc. now destruct (suite_call_is_not_teardown n c Hc) as (_ & H & _). }
    assert (Heq : EvCall PlaywrightStart Returned
                    :: map (fun c => EvCall c Returned) (setup (script_of n))
                    ++ evs ++ [EvCall PlaywrightStop o2]
                  = (EvCall PlaywrightStart Returned
                       :: map (fun c => EvCall c Returned)
                              (setup (script_of n))
                       ++ evs)
                    ++ [EvCall PlaywrightStop o2])
      by (cbn [app]; rewrite <- app_assoc; reflexivity).
    rewrite Heq. split.
    + rewrite count_calls_app, Hpre. reflexivity.
    + intros _. eexists; eexists. split; [reflexivity|exact Hpre].
Qed.

(** X1.  For every script and environment: when the start of the driver or
    one of the calls that obtain the browser, the context and the page
    raises, the try statement is never entered.  Nothing but those calls and
    the stop of the driver is awaited: no navigation, no screenshot, and no
    [browser.close()], even when the browser had been launched; nothing is
    printed, caught or written; and the exception leaves [main], so the
    exit status is not 0. *)
Theorem setup_failure_skips_the_run (n : script_name) (env : environment) :
  let tr := fst (main n env []) in
  raised_in is_pre_try tr = true ->
  forallb (fun c => is_pre_try c || is_driver_stop c) (calls_of tr) = true /\
  printed tr = [] /\
  caught tr = [] /\
  files_written tr = [] /\
  close_calls tr = 0 /\
  exit_status (snd (main n env [])) <> 0%Z.
Proof.
  cbv zeta. rewrite main_unfold.
  destruct (main_of_shape (script_of n) env []) as [e|i c e o2 Hn|evs r o2 Hrun].
  - intros _. repeat split; try reflexivity. discriminate.
  - intros _.
    destruct n; destruct i as [|[|[|i]]]; cbn in Hn;
      try discriminate Hn;
      try (inversion Hn; subst c; destruct o2;
           repeat split; try reflexivity; discriminate);
      destruct i; discriminate Hn.
  - intros Hraised. exfalso.
    rewrite raised_in_cons, !raised_in_app, raised_in_returned in Hraised.
    rewrite (raised_in_false is_pre_try evs) in Hraised.
    + destruct o2; discriminate Hraised.
    + apply (run_awaits_nothing_else _ n _ _ _ _ Hrun); try reflexivity.
      intros c Hc. now destruct (suite_call_is_not_teardown n c Hc) as (H & _).
Qed.

Lemma setup_failure_skips_the_run_witness :
  let tr := fst (main MobileProducts env_no_page []) in
  forallb (fun c => is_pre_try c || is_driver_stop c) (calls_of tr) = true /\
  printed tr = [] /\
  caught tr = [] /\
  files_written tr = [] /\
  close_calls tr = 0 /\
  exit_status (snd (main MobileProducts env_no_page [])) <> 0%Z.
Proof.
  apply (setup_failure_skips_the_run MobileProducts env_no_page).
  reflexivity.
Defined.
(** * Runs on a standard output that can fail *)

(** ** Blocks and shapes *)

Section Actions.

Variable w : world.

Lemma perform_cases (a : action) (h : io_trace) :
  (w h a = Returned /\ perform a w h = ([Did a Returned], Ret tt)) \/
  (exists e, w h a = Raised e /\ perform a w h = ([Did a (Raised e)], Exc e)).
Proof.
  unfold perform. destruct (w h a) as [|e]; [left | right; exists e]; auto.
Qed.

Lemma block_io_cons (st : stmt) (rest : list stmt) (h : io_trace) :
  block_io (st :: rest) w h =
  match w h (action_of st) with
  | Returned =>
      (did_ok st :: fst (block_io rest w (h ++ [did_ok st])),
       snd (block_io rest w (h ++ [did_ok st])))
  | Raised e => ([Did (action_of st) (Raised e)], Exc e)
  end.
Proof.
  cbn [block_io]. unfold io_bind, perform, did_ok.
  destruct (w h (action_of st)) as [|e]; [|reflexivity].
  destruct (block_io rest w (h ++ [Did (action_of st) Returned])). reflexivity.
Qed.

(** A block runs all its statements, or stops at the first one that
    raises, be it an awaited call or a print. *)
Lemma block_io_cases (stmts : list stmt) (h : io_trace) :
  block_io stmts w h = (map did_ok stmts, Ret tt) \/
  exists i st e,
    nth_error stmts i = Some st /\
    w (h ++ map did_ok (firstn i stmts)) (action_of st) = Raised e /\
    block_io stmts w h =
      (map did_ok (firstn i stmts) ++ [Did (action_of st) (Raised e)], Exc e).
Proof.
  revert h. induction stmts as [|s rest IH]; intros h.
  - left. reflexivity.
  - rewrite block_io_cons. destruct (w h (action_of s)) as [|e] eqn:Hs.
    + destruct (IH (h ++ [did_ok s])) as [Hok|(i & st & e & Hn & He & Hb)].
      * left. rewrite Hok. reflexivity.
      * right. exists (S i), st, e. rewrite Hb.
        cbn [nth_error firstn map fst snd app].
        rewrite <- app_assoc in He. auto.
    + right. exists 0, s, e. cbn [nth_error firstn map app].
      rewrite app_nil_r. auto.
Qed.

Lemma block_io_single (c : call) (h : io_trace) :
  block_io [Await c] w h
  = ([Did (Do c) (w h (Do c))], result_of_outcome (w h (Do c))).
Proof.
  rewrite block_io_cons. cbn [action_of]. unfold did_ok.
  destruct (w h (Do c)); reflexivity.
Qed.

Lemma handler_io_runs (s : script) (e : exn) (h : io_trace) :
  exists hevs hr,
    block_io (handler_of s e) w h = (hevs, hr) /\ handler_shape s e hevs hr.
Proof.
  unfold handler_of. rewrite block_io_cons. cbn [action_of].
  destruct (w h (Write (error_line e))) as [|e1].
  - rewrite block_io_single. cbn [fst snd]. eexists; eexists.
    split; [reflexivity|]. apply handler_printed.
  - eexists; eexists. split; [reflexivity|]. apply handler_print_raised.
Qed.

Lemma run_io_has_shape (s : script) (h : io_trace) :
  run_io_shape s w h (fst (run_io s w h)) (snd (run_io s w h)).
Proof.
  unfold run_io, try_except_finally_io.
  destruct (block_io_cases (body s) h) as [Hok|(i & st & e & Hn & He & Hb)].
  - rewrite Hok, block_io_single. cbn [fst snd app].
    destruct (w _ (Do Close)) as [|e3]; apply (io_completed s).
  - rewrite Hb. destruct (except_Exception e) eqn:Hex.
    + destruct (handler_io_runs s e
                  (h ++ (map did_ok (firstn i (body s))
                           ++ [Did (action_of st) (Raised e)]) ++ [Caught e]))
        as (hevs & hr & Hh & Hshape).
      rewrite Hh, block_io_single. cbn [fst snd].
      rewrite <- app_assoc.
      destruct (w _ (Do Close)) as [|e3];
        [ apply (io_caught s w h i st e hevs hr Returned Hn He Hex Hshape)
        | apply (io_caught s w h i st e hevs hr (Raised e3) Hn He Hex Hshape) ].
    + rewrite block_io_single. cbn [fst snd app].
      rewrite <- app_assoc.
      destruct (w _ (Do Close)) as [|e3];
        [ apply (io_uncaught s w h i st e Returned Hn He Hex)
        | apply (io_uncaught s w h i st e (Raised e3) Hn He Hex) ].
Qed.

Lemma did_ok_awaits (cs : list call) :
  map did_ok (map Await cs) = map (fun c => Did (Do c) Returned) cs.
Proof. now rewrite map_map. Qed.

Lemma nth_error_awaits (cs : list call) (i : nat) (st : stmt) :
  nth_error (map Await cs) i = Some st ->
  exists c, st = Await c /\ nth_error cs i = Some c.
Proof.
  rewrite nth_error_map. destruct (nth_error cs i) as [c|]; cbn;
    [|discriminate]. intros H. inversion H. eauto.
Qed.

Lemma setup_then_run_cases (s : script) (h : io_trace) :
  (exists evs r,
     run_io_shape s w
       (h ++ map (fun c => Did (Do c) Returned) (setup s)) evs r /\
     io_bind (block_io (map Await (setup s))) (fun _ => run_io s) w h
     = (map (fun c => Did (Do c) Returned) (setup s) ++ evs, r)) \/
  (exists i c e,
     nth_error (setup s) i = Some c /\
     io_bind (block_io (map Await (setup s))) (fun _ => run_io s) w h
     = (map (fun c => Did (Do c) Returned) (firstn i (setup s))
          ++ [Did (Do c) (Raised e)], Exc e)).
Proof.
  unfold io_bind.
  destruct (block_io_cases (map Await (setup s)) h)
    as [Hok|(i & st & e & Hn & _ & Hb)].
  - left. rewrite Hok, did_ok_awaits.
    pose proof (run_io_has_shape s
                  (h ++ map (fun c => Did (Do c) Returned) (setup s))) as Hrun.
    destruct (run_io s w _) as [evs r]. cbn [fst snd] in Hrun.
    exists evs, r. split; [exact Hrun|reflexivity].
  - right. rewrite Hb.
    destruct (nth_error_awaits _ _ _ Hn) as (c & -> & Hc).
    rewrite firstn_map, did_ok_awaits. cbn [action_of].
    exists i, c, e. split; [exact Hc|reflexivity].
Qed.

Lemma main_io_has_shape (s : script) :
  main_io_shape s w (fst (main_io s w [])) (snd (main_io s w [])).
Proof.
  unfold main_io, async_with_playwright_io, perform.
  destruct (w [] (Do PlaywrightStart)) as [|e0]; [|apply io_no_driver].
  cbn [app].
  destruct (setup_then_run_cases s [Did (Do PlaywrightStart) Returned])
    as [(evs & r & Hrun & Heq)|(i & c & e & Hn & Heq)]; rewrite Heq.
  - destruct (w _ (Do PlaywrightStop)) as [|e2]; cbn [fst snd app];
      rewrite <- app_assoc.
    + exact (io_ran s w _ evs r Returned Hrun).
    + exact (io_ran s w _ evs r (Raised e2) Hrun).
  - destruct (w _ (Do PlaywrightStop)) as [|e2]; cbn [fst snd app];
      rewrite <- app_assoc.
    + exact (io_setup_failed s w i c e Returned Hn).
    + exact (io_setup_failed s w i c e (Raised e2) Hn).
Qed.

End Actions.

(** ** What is seen of such a trace *)

Lemma seen_app (a b : io_trace) : seen (a ++ b) = seen a ++ seen b.
Proof. apply flat_map_app. Qed.

Lemma seen_cons (ev : io_event) (tr : io_trace) :
  seen (ev :: tr) = seen [ev] ++ seen tr.
Proof. apply (seen_app [ev] tr). Qed.

Lemma seen_did_ok (stmts : list stmt) :
  seen (map did_ok stmts) = map ok_event stmts.
Proof.
  induction stmts as [|[c|line] rest IH]; [reflexivity| |];
    cbn [map]; rewrite seen_cons, IH; reflexivity.
Qed.

Lemma seen_returned (cs : list call) :
  seen (map (fun c => Did (Do c) Returned) cs)
  = map (fun c => EvCall c Returned) cs.
Proof.
  induction cs as [|c cs IH]; [reflexivity|].
  cbn [map]. rewrite seen_cons, IH. reflexivity.
Qed.

(** ** The first semantics is the second on a standard output that accepts
    every line *)

Lemma block_io_quiet (env : environment) (stmts : list stmt) (h : io_trace) :
  seen (fst (block_io stmts (quiet env) h)) = fst (block stmts env (seen h)) /\
  snd (block_io stmts (quiet env) h) = snd (block stmts env (seen h)).
Proof.
  revert h. induction stmts as [|st rest IH]; intros h; [split; reflexivity|].
  rewrite block_io_cons. destruct st as [c|line]; cbn [action_of quiet].
  - destruct (env (seen h) c) as [|e] eqn:Hc.
    + rewrite (block_await_returned env _ _ _ Hc). cbn [fst snd].
      destruct (IH (h ++ [did_ok (Await c)])) as [H1 H2].
      rewrite seen_app in H1, H2. rewrite seen_cons, H1, H2. split; reflexivity.
    + rewrite (block_await_raised env _ _ _ _ Hc). split; reflexivity.
  - rewrite block_print. cbn [fst snd].
    destruct (IH (h ++ [did_ok (Print line)])) as [H1 H2].
    rewrite seen_app in H1, H2. rewrite seen_cons, H1, H2. split; reflexivity.
Qed.

Lemma run_io_quiet (s : script) (env : environment) (h : io_trace) :
  seen (fst (run_io s (quiet env) h)) = fst (run_of s env (seen h)) /\
  snd (run_io s (quiet env) h) = snd (run_of s env (seen h)).
Proof.
  unfold run_io, run_of, try_except_finally_io, try_except_finally.
  destruct (block_io_quiet env (body s) h) as [Hb1 Hb2].
  destruct (block_io (body s) (quiet env) h) as [evs1 r1].
  destruct (block (body s) env (seen h)) as [evs1' r1'].
  cbn [fst snd] in Hb1, Hb2. subst evs1' r1'.
  destruct r1 as [[]|e].
  - destruct (block_io_quiet env [Await Close] (h ++ evs1 ++ [])) as [Hc1 Hc2].
    rewrite !seen_app in Hc1, Hc2. cbn [seen flat_map] in Hc1, Hc2.
    destruct (block_io [Await Close] (quiet env) (h ++ evs1 ++ [])) as [evs3 r3].
    destruct (block [Await Close] env (seen h ++ seen evs1 ++ [])) as [evs3' r3'].
    cbn [fst snd] in *. subst evs3' r3'.
    rewrite !seen_app. split; reflexivity.
  - destruct (except_Exception e).
    + destruct (block_io_quiet env (handler_of s e) (h ++ evs1 ++ [Caught e]))
        as [Hh1 Hh2].
      rewrite !seen_app in Hh1, Hh2. cbn [seen flat_map app] in Hh1, Hh2.
      destruct (block_io (handler_of s e) (quiet env) (h ++ evs1 ++ [Caught e]))
        as [evs2 r2].
      destruct (block (handler_of s e) env (seen h ++ seen evs1 ++ [EvCaught e]))
        as [evs2' r2'].
      cbn [fst snd] in Hh1, Hh2. subst evs2' r2'.
      destruct (block_io_quiet env [Await Close]
                  (h ++ evs1 ++ Caught e :: evs2)) as [Hc1 Hc2].
      rewrite !seen_app, (seen_cons (Caught e)) in Hc1, Hc2.
      cbn [seen flat_map app] in Hc1, Hc2.
      destruct (block_io [Await Close] (quiet env)
                  (h ++ evs1 ++ Caught e :: evs2)) as [evs3 r3].
      destruct (block [Await Close] env
                  (seen h ++ seen evs1 ++ EvCaught e :: seen evs2))
        as [evs3' r3'].
      cbn [fst snd] in *. subst evs3' r3'.
      rewrite !seen_app, (seen_cons (Caught e)).
      split; reflexivity.
    + destruct (block_io_quiet env [Await Close] (h ++ evs1 ++ [])) as [Hc1 Hc2].
      rewrite !seen_app in Hc1, Hc2. cbn [seen flat_map] in Hc1, Hc2.
      destruct (block_io [Await Close] (quiet env) (h ++ evs1 ++ [])) as [evs3 r3].
      destruct (block [Await Close] env (seen h ++ seen evs1 ++ [])) as [evs3' r3'].
      cbn [fst snd] in *. subst evs3' r3'.
      rewrite !seen_app. split; reflexivity.
Qed.

Lemma setup_quiet (env : environment) (s : script) (cs : list call)
      (h : io_trace) :
  seen (fst (io_bind (block_io (map Await cs)) (fun _ => run_io s)
                     (quiet env) h))
    = fst (awaits cs (run_of s) env (seen h)) /\
  snd (io_bind (block_io (map Await cs)) (fun _ => run_io s) (quiet env) h)
    = snd (awaits cs (run_of s) env (seen h)).
Proof.
  revert h. induction cs as [|c cs IH]; intros h.
  - unfold io_bind. cbn [map block_io io_ret awaits app].
    rewrite app_nil_r.
    destruct (run_io_quiet s env h) as [H1 H2].
    destruct (run_io s (quiet env) h) as [evs r]. cbn [fst snd] in *.
    split; assumption.
  - rewrite awaits_cons. specialize (IH (h ++ [did_ok (Await c)])).
    unfold io_bind in *. cbn [map] in *. rewrite block_io_cons.
    cbn [action_of quiet]. destruct (env (seen h) c) as [|e]; [|split; reflexivity].
    rewrite seen_app in IH.
    change (seen [did_ok (Await c)]) with [EvCall c Returned] in IH.
    cbn [fst snd].
    destruct (block_io (map Await cs) (quiet env) (h ++ [did_ok (Await c)]))
      as [evs [[]|e]]; cbn [fst snd] in *.
    + replace (h ++ did_ok (Await c) :: evs)
        with ((h ++ [did_ok (Await c)]) ++ evs)
        by (now rewrite <- app_assoc).
      destruct (run_io s (quiet env) ((h ++ [did_ok (Await c)]) ++ evs))
        as [evs' r']. cbn [fst snd] in *.
      destruct IH as [H1 H2]. rewrite <- H1, <- H2.
      cbn [app]. rewrite (seen_cons (did_ok (Await c))). split; reflexivity.
    + destruct IH as [H1 H2]. rewrite <- H1, <- H2.
      rewrite seen_cons. split; reflexivity.
Qed.

(** The process of a script under an environment, as modelled first, is its
    process in the world where that environment answers the calls and
    standard output accepts every line. *)
Lemma process_quiet (n : script_name) (env : environment) :
  seen (fst (process n (quiet env))) = fst (asyncio_run (main n) env) /\
  snd (process n (quiet env)) = snd (asyncio_run (main n) env).
Proof.
  rewrite asyncio_run_unfold, main_unfold. unfold process.
  cbn [fst snd].
  assert (H : seen (fst (main_io (script_of n) (quiet env) []))
              = fst (main_of (script_of n) env []) /\
              snd (main_io (script_of n) (quiet env) [])
              = snd (main_of (script_of n) env [])).
  { unfold main_io, main_of, async_with_playwright_io, async_with_playwright,
      perform, await. cbn [quiet seen flat_map].
    destruct (env [] PlaywrightStart) as [|e0]; [|split; reflexivity].
    cbn [app].
    destruct (setup_quiet env (script_of n) (setup (script_of n))
                [Did (Do PlaywrightStart) Returned]) as [H1 H2].
    cbn [seen flat_map app] in H1, H2.
    destruct (io_bind _ _ (quiet env) [Did (Do PlaywrightStart) Returned])
      as [evs1 r1].
    destruct (awaits _ _ env [EvCall PlaywrightStart Returned]) as [evs1' r1'].
    cbn [fst snd] in H1, H2. subst evs1' r1'.
    change (seen (Did (Do PlaywrightStart) Returned :: evs1))
      with (EvCall PlaywrightStart Returned :: seen evs1).
    destruct (env (EvCall PlaywrightStart Returned :: seen evs1) PlaywrightStop)
      as [|e2]; cbn [fst snd];
      rewrite (seen_cons (Did (Do PlaywrightStart) Returned)), !seen_app;
      split; reflexivity. }
  destruct (main_io (script_of n) (quiet env) []) as [tr r].
  cbn [fst snd] in *. destruct H as [H1 H2]. now rewrite H1, H2.
Qed.

(** ** Facts on the shapes *)

Lemma process_unfold (n : script_name) (w : world) :
  process n w = (fst (main_io (script_of n) w []),
                 exit_status (snd (main_io (script_of n) w []))).
Proof. unfold process. destruct (main_io (script_of n) w []); reflexivity. Qed.

(** What is seen of the statement that raised: the call, or nothing when it
    is a print. *)
Lemma seen_failure (st : stmt) (e : exn) :
  seen [Did (action_of st) (Raised e)]
  = match st with
    | Await c => [EvCall c (Raised e)]
    | Print _ => []
    end.
Proof. destruct st; reflexivity. Qed.

Lemma seen_handler (s : script) (e : exn) (hevs : io_trace) (hr : result unit) :
  handler_shape s e hevs hr ->
  (exists e1, hevs = [Did (Write (error_line e)) (Raised e1)] /\
              hr = Exc e1 /\ seen hevs = []) \/
  (exists o, hevs = [Did (Write (error_line e)) Returned;
                     Did (Do (Screenshot (error_screenshot s))) o] /\
             hr = result_of_outcome o /\
             seen hevs = [EvPrint (error_line e);
                          EvCall (Screenshot (error_screenshot s)) o]).
Proof.
  intros [e1|o]; [left; exists e1 | right; exists o]; auto.
Qed.

Lemma failure_closes_nothing (s : script) (i : nat) (st : stmt) (e : exn) :
  plain_suite s -> nth_error (body s) i = Some st ->
  close_calls (seen [Did (action_of st) (Raised e)]) = 0.
Proof.
  unfold plain_suite. intros Hp Hn. rewrite forallb_forall in Hp.
  specialize (Hp st (nth_error_In _ _ Hn)).
  destruct st as [[]|]; cbn in *; auto; discriminate.
Qed.

Lemma handler_closes_nothing (s : script) (e : exn)
      (hevs : io_trace) (hr : result unit) :
  handler_shape s e hevs hr -> close_calls (seen hevs) = 0.
Proof. intros [e1|o]; reflexivity. Qed.

(** Whatever the shape of the run, [browser.close()] is awaited once, last. *)
Lemma run_io_closes_once (s : script) (w : world) (h : io_trace)
      (evs : io_trace) (r : result unit) :
  plain_suite s -> run_io_shape s w h evs r ->
  close_calls (seen evs) = 1 /\
  exists pre o, evs = pre ++ [Did (Do Close) o] /\ close_calls (seen pre) = 0.
Proof.
  intros Hp Hs.
  destruct Hs as [o|i st e hevs hr o' Hn _ _ Hh|i st e o' Hn _ _].
  - assert (H0 : close_calls (seen (map did_ok (body s))) = 0)
      by (rewrite seen_did_ok; apply (plain_events_no_close s); exact Hp).
    split.
    + rewrite seen_app, close_calls_app, H0. reflexivity.
    + exists (map did_ok (body s)), o. auto.
  - assert (H0 : close_calls (seen (map did_ok (firstn i (body s)))) = 0)
      by (rewrite seen_did_ok;
          apply (plain_events_no_close s), forallb_firstn; exact Hp).
    pose proof (failure_closes_nothing s i st e Hp Hn) as H1.
    pose proof (handler_closes_nothing s e hevs hr Hh) as H2.
    split.
    + rewrite !seen_app, !close_calls_app, H0, H1, H2. reflexivity.
    + exists (map did_ok (firstn i (body s))
                ++ [Did (action_of st) (Raised e)] ++ [Caught e] ++ hevs), o'.
      split; [now rewrite <- !app_assoc|].
      rewrite !seen_app, !close_calls_app, H0, H1, H2. reflexivity.
  - assert (H0 : close_calls (seen (map did_ok (firstn i (body s)))) = 0)
      by (rewrite seen_did_ok;
          apply (plain_events_no_close s), forallb_firstn; exact Hp).
    pose proof (failure_closes_nothing s i st e Hp Hn) as H1.
    split.
    + rewrite !seen_app, !close_calls_app, H0, H1. reflexivity.
    + exists (map did_ok (firstn i (body s))
                ++ [Did (action_of st) (Raised e)]), o'.
      split; [now rewrite <- !app_assoc|].
      rewrite !seen_app, !close_calls_app, H0, H1. reflexivity.
Qed.

(** ** Teardown, whatever standard output does *)

(** C2, as stated, fails: in a run of [main] where the browser is launched
    and the page cannot be obtained, the exception leaves [main] before the
    [try] statement and [browser.close()] is never awaited. *)
Lemma launched_browser_is_never_closed :
  In (EvCall (Launch true) Returned)
     (seen (fst (process LazyLoading (quiet env_no_page)))) /\
  close_calls (seen (fst (process LazyLoading (quiet env_no_page)))) = 0 /\
  snd (process LazyLoading (quiet env_no_page)) = 1%Z.
Proof. vm_compute. auto. Qed.

(** C2, amended.  For every script and every world, with a standard output
    that may fail: started from any history, the [try] statement awaits
    [browser.close()] exactly once, as its last action, on each of its exit
    paths (the suite completed, an error was caught, an error was not
    matched by the except clause, the except suite itself raised); and over
    a whole [main], the browser is closed exactly once when the page was
    obtained, so that the [try] statement was entered, and not at all
    otherwise. *)
Theorem browser_closed_once_when_running (n : script_name) (w : world) :
  (forall h : io_trace,
     let evs := fst (run_io (script_of n) w h) in
     close_calls (seen evs) = 1 /\
     exists pre o,
       evs = pre ++ [Did (Do Close) o] /\ close_calls (seen pre) = 0) /\
  (let tr := fst (process n w) in
   close_calls (seen tr) = if page_opened (seen tr) then 1 else 0).
Proof.
  split.
  - intros h. apply (run_io_closes_once _ _ _ _ _ (scripts_have_plain_suites n)
                       (run_io_has_shape w (script_of n) h)).
  - cbv zeta. rewrite process_unfold. cbn [fst].
    destruct (main_io_has_shape w (script_of n)) as [e|i c e o2 Hn|h evs r o2 Hrun].
    + reflexivity.
    + destruct (partial_setup_has_no_page n i c e Hn) as [Hpage Hclose].
      rewrite seen_cons, !seen_app, seen_returned.
      change (seen [Did (Do c) (Raised e)]) with [EvCall c (Raised e)].
      rewrite (app_assoc (map _ _) [EvCall c (Raised e)]).
      rewrite page_opened_app, page_opened_app,
        close_calls_app, close_calls_app, Hpage, Hclose.
      destruct o2; reflexivity.
    + destruct (run_io_closes_once _ _ _ _ _ (scripts_have_plain_suites n) Hrun)
        as [Hone _].
      pose proof (setup_opens_page n) as Hpage.
      assert (Hs : close_calls (map (fun c => EvCall c Returned)
                                    (setup (script_of n))) = 0)
        by (destruct n; reflexivity).
      rewrite seen_cons, !seen_app, seen_returned.
      rewrite !page_opened_app, !close_calls_app, Hpage, Hone, Hs.
      destruct o2; reflexivity.
Qed.

(** ** After the catch *)

Lemma caught_seen_did (a : action) (o : outcome) :
  caught (seen [Did a o]) = [].
Proof. destruct a, o; reflexivity. Qed.

Lemma after_catch_at (pre : io_trace) (e : exn) (rest : io_trace) :
  caught (seen pre) = [] -> after_catch (pre ++ Caught e :: rest) = rest.
Proof.
  induction pre as [|ev pre IH]; [reflexivity|].
  rewrite seen_cons, caught_app. destruct ev as [a o|e0].
  - rewrite caught_seen_did. exact IH.
  - discriminate.
Qed.

Lemma after_catch_none (tr : io_trace) :
  caught (seen tr) = [] -> after_catch tr = [].
Proof.
  induction tr as [|ev tr IH]; [reflexivity|].
  rewrite seen_cons, caught_app. destruct ev as [a o|e0].
  - rewrite caught_seen_did. exact IH.
  - discriminate.
Qed.


Lemma nothing_caught_in_suite (stmts : list stmt) :
  caught (seen (map did_ok stmts)) = [].
Proof. rewrite seen_did_ok. apply caught_ok. Qed.




(** ** Exit status after a caught error *)




(** ** The success path *)

Lemma print_raised_app (a b : io_trace) :
  print_raised (a ++ b) = print_raised a || print_raised b.
Proof. apply existsb_app. Qed.

Lemma no_print_raised_in_suite (stmts : list stmt) :
  print_raised (map did_ok stmts) = false.
Proof. induction stmts as [|[c|line] rest IH]; cbn; auto. Qed.

(** In a run where no page step, no success screenshot and no print raised,
    no statement of the suite raised. *)
Lemma suite_statement_cannot_raise (n : script_name) (i : nat) (st : stmt)
      (e : exn) (rest : io_trace) :
  nth_error (body (script_of n)) i = Some st ->
  let evs := map did_ok (firstn i (body (script_of n)))
               ++ [Did (action_of st) (Raised e)] ++ rest in
  raised_in is_page_step (seen evs) = false ->
  raised_in (screenshot_to (success_screenshot n)) (seen evs) = false ->
  print_raised evs = false ->
  False.
Proof.
  cbv zeta. intros Hn Hpage Hshot Hprint. destruct st as [c|line].
  - rewrite !seen_app, seen_did_ok in Hpage, Hshot.
    change (seen [Did (action_of (Await c)) (Raised e)])
      with [EvCall c (Raised e)] in Hpage, Hshot.
    apply raised_in_failure in Hpage, Hshot.
    destruct (suite_calls n i c Hn); congruence.
  - rewrite !print_raised_app, no_print_raised_in_suite in Hprint.
    discriminate Hprint.
Qed.

(** C4, as stated, fails: with the application reachable and every queried
    element visible, the run still catches an exception and leaves no
    success file when the success screenshot cannot be written, and also
    when standard output cannot encode the first progress line. *)
Lemma success_path_needs_screenshot_and_prints :
  (let evs := fst (run_io (script_of MobileHome) (quiet env_read_only) []) in
   raised_in is_page_step (seen evs) = false /\
   caught (seen evs) = [read_only_error] /\
   files_written (seen evs) = []) /\
  (let evs := fst (run_io (script_of MobileHome) (ascii_stdout env_all_ok) []) in
   raised_in is_page_step (seen evs) = false /\
   caught (seen evs) = [encode_error] /\
   files_written (seen evs) = []).
Proof. vm_compute. auto 10. Qed.

(** C4, amended.  For every script, world and history: when no navigation,
    visibility assertion or click raised during the run, the screenshot to
    the success path did not raise, and no print raised, the try suite ran
    to its end, nothing was caught, and the files written are exactly the
    one success screenshot; no error screenshot exists. *)
Theorem success_path (n : script_name) (w : world) (h : io_trace) :
  let evs := fst (run_io (script_of n) w h) in
  raised_in is_page_step (seen evs) = false ->
  raised_in (screenshot_to (success_screenshot n)) (seen evs) = false ->
  print_raised evs = false ->
  caught (seen evs) = [] /\
  files_written (seen evs) = [success_screenshot n] /\
  ~ In (error_screenshot (script_of n)) (files_written (seen evs)) /\
  exists o, evs = map did_ok (body (script_of n)) ++ [Did (Do Close) o].
Proof.
  cbv zeta. pose proof (run_io_has_shape w (script_of n) h) as Hs.
  destruct (run_io (script_of n) w h) as [evs r]. cbn [fst snd] in *.
  intros Hpage Hshot Hprint.
  destruct Hs as [o|i st e hevs hr o' Hn _ _ Hh|i st e o' Hn _ _].
  - rewrite seen_app, seen_did_ok.
    change (seen [Did (Do Close) o]) with [EvCall Close o].
    rewrite caught_app, caught_ok, completed_files. repeat split; eauto.
    intros [Heq|[]]. exact (success_is_not_error n Heq).
  - exfalso. exact (suite_statement_cannot_raise n i st e _ Hn Hpage Hshot Hprint).
  - exfalso. exact (suite_statement_cannot_raise n i st e _ Hn Hpage Hshot Hprint).
Qed.

Lemma success_path_witness :
  let evs := fst (run_io (script_of LazyLoading) (quiet env_all_ok) []) in
  caught (seen evs) = [] /\
  files_written (seen evs) = [success_screenshot LazyLoading] /\
  ~ In (error_screenshot (script_of LazyLoading)) (files_written (seen evs)) /\
  exists o, evs = map did_ok (body (script_of LazyLoading))
                    ++ [Did (Do Close) o].
Proof.
  apply (success_path LazyLoading (quiet env_all_ok) []); reflexivity.
Defined.

(** ** The application is down *)




(** ** Files, diagnostics and progress lines when prints can raise *)

(** Case analysis on the position [i] of the statement [st] that raised, in
    a suite of at most [k] statements. *)
Tactic Notation "by_statement" integer(k) ident(i) hyp(Hn) ident(st) tactic(tac) :=
  do k (destruct i as [|i];
        [cbn in Hn; inversion Hn; subst st; tac|]);
  destruct i; discriminate Hn.

(** When a statement raises, no file has been written, unless it is the
    last print of the suite, which follows the success screenshot. *)
Lemma files_before_failure (n : script_name) (i : nat) (st : stmt) :
  nth_error (body (script_of n)) i = Some st ->
  files_written (map ok_event (firstn i (body (script_of n)))) = [] \/
  (st = Print (final_line n) /\
   files_written (map ok_event (firstn i (body (script_of n))))
   = [success_screenshot n]).
Proof.
  intros Hn. destruct n;
    [ by_statement 14 i Hn st
        ltac:(first [left; reflexivity | right; split; reflexivity])
    | by_statement 5 i Hn st
        ltac:(first [left; reflexivity | right; split; reflexivity])
    | by_statement 5 i Hn st
        ltac:(first [left; reflexivity | right; split; reflexivity]) ].
Qed.

Lemma failure_writes_nothing (st : stmt) (e : exn) :
  files_written (seen [Did (action_of st) (Raised e)]) = [] /\
  printed (seen [Did (action_of st) (Raised e)]) = [] /\
  caught (seen [Did (action_of st) (Raised e)]) = [].
Proof. destruct st as [[]|]; repeat split; reflexivity. Qed.

(** X5.  For every script, world and history, the screenshot files a run
    leaves are none, the success screenshot, the error screenshot, or both
    in that order.  The error screenshot is written only after an exception
    was caught; and the success screenshot exists together with a caught
    exception only when the last print of the suite, the one that follows
    the success screenshot, is what raised. *)
Theorem screenshot_files_of_a_run
    (n : script_name) (w : world) (h : io_trace) :
  let evs := fst (run_io (script_of n) w h) in
  let files := files_written (seen evs) in
  In files [ [];
             [success_screenshot n];
             [error_screenshot (script_of n)];
             [success_screenshot n; error_screenshot (script_of n)] ] /\
  (In (error_screenshot (script_of n)) files ->
   exists e, caught (seen evs) = [e]) /\
  (In (success_screenshot n) files -> caught (seen evs) <> [] ->
   exists e, In (Did (Write (final_line n)) (Raised e)) evs).
Proof.
  cbv zeta. pose proof (run_io_has_shape w (script_of n) h) as Hs.
  destruct (run_io (script_of n) w h) as [evs r]. cbn [fst snd] in *.
  pose proof (success_is_not_error n) as Hne.
  destruct Hs as [o|i st e hevs hr o' Hn _ _ Hh|i st e o' Hn _ _].
  - rewrite seen_app, seen_did_ok.
    change (seen [Did (Do Close) o]) with [EvCall Close o].
    rewrite caught_app, caught_ok, completed_files.
    split; [cbn; auto|]. split.
    + intros [H|[]]. now contradiction Hne.
    + intros _ H. now contradiction H.
  - destruct (failure_writes_nothing st e) as (Hf & _ & Hc).
    rewrite !seen_app, seen_did_ok, !files_written_append, !caught_app,
      caught_ok, Hf, Hc.
    change (seen [Caught e]) with [EvCaught e].
    change (seen [Did (Do Close) o']) with [EvCall Close o'].
    assert (Hfiles : files_written (seen hevs) = [] \/
                     files_written (seen hevs) = [error_screenshot (script_of n)])
      by (destruct Hh as [e1|[|e2]]; cbn; auto).
    assert (Hcaught : caught (seen hevs) = [])
      by (destruct Hh as [e1|o]; reflexivity).
    rewrite Hcaught. cbn [app files_written caught flat_map].
    rewrite app_nil_r.
    destruct (files_before_failure n i st Hn) as [Hpre|[-> Hpre]];
      rewrite Hpre; destruct Hfiles as [Hh'|Hh']; rewrite Hh'; cbn [app].
    + split; [cbn; auto|]. split; [intros []|intros []].
    + split; [cbn; auto|]. split; [intros _; eauto|].
      intros [H|[]]. symmetry in H. now contradiction Hne.
    + split; [cbn; auto|]. split.
      * intros [H|[]]. now contradiction Hne.
      * intros _ _. exists e. apply in_or_app. right. left. reflexivity.
    + split; [cbn; auto 10|]. split; [intros _; eauto|].
      intros _ _. exists e. apply in_or_app. right. left. reflexivity.
  - destruct (failure_writes_nothing st e) as (Hf & _ & Hc).
    rewrite !seen_app, seen_did_ok, !files_written_append, !caught_app,
      caught_ok, Hf, Hc.
    change (seen [Did (Do Close) o']) with [EvCall Close o'].
    cbn [app files_written caught flat_map]. rewrite app_nil_r.
    destruct (files_before_failure n i st Hn) as [Hpre|[-> Hpre]];
      rewrite Hpre.
    + split; [cbn; auto|]. split; [intros []|intros []].
    + split; [cbn; auto|]. split.
      * intros [H|[]]. now contradiction Hne.
      * intros _ H. now contradiction H.
Qed.

Lemma count_calls_failure (p : call -> bool) (n : script_name) (i : nat)
      (st : stmt) (e : exn) :
  (forall c, is_suite_call n c = true -> p c = false) ->
  nth_error (body (script_of n)) i = Some st ->
  count_calls p (seen [Did (action_of st) (Raised e)]) = 0.
Proof.
  intros Hp Hn. destruct st as [c|line]; [|reflexivity].
  unfold count_calls. cbn. now rewrite (Hp c (is_suite_call_at n i c Hn)).
Qed.

(** X6.  For every script, world and history: a run catches at most one
    exception; it attempts the error screenshot once when an exception was
    caught and the error line could be printed, and never otherwise; and
    what reaches standard output is a prefix of the progress lines of the
    suite, followed by the error line when an exception was caught and the
    print of that line returned. *)
Theorem one_diagnostic_per_caught_error
    (n : script_name) (w : world) (h : io_trace) :
  let evs := fst (run_io (script_of n) w h) in
  let told := if print_raised (after_catch evs) then []
              else caught (seen evs) in
  length (caught (seen evs)) <= 1 /\
  count_calls (screenshot_to (error_screenshot (script_of n))) (seen evs)
    = length told /\
  exists k,
    printed (seen evs)
    = firstn k (progress_lines (script_of n)) ++ map error_line told.
Proof.
  cbv zeta. pose proof (run_io_has_shape w (script_of n) h) as Hs.
  destruct (run_io (script_of n) w h) as [evs r]. cbn [fst snd] in *.
  pose proof (suite_call_is_not_error_screenshot n) as Hsuite.
  destruct Hs as [o|i st e hevs hr o' Hn _ _ Hh|i st e o' Hn _ _].
  - assert (Hnone : caught (seen (map did_ok (body (script_of n))
                                    ++ [Did (Do Close) o])) = [])
      by (rewrite seen_app, caught_app, nothing_caught_in_suite; reflexivity).
    rewrite (after_catch_none _ Hnone), Hnone.
    rewrite seen_app, seen_did_ok, count_calls_app,
      (count_calls_suite _ n Hsuite), printed_append.
    split; [cbn; lia|]. split; [reflexivity|].
    exists (length (progress_lines (script_of n))).
    rewrite firstn_all. reflexivity.
  - destruct (failure_writes_nothing st e) as (_ & Hp & Hc).
    destruct (printed_prefix (body (script_of n)) i) as [k Hk].
    assert (Hafter : after_catch
                       (map did_ok (firstn i (body (script_of n)))
                          ++ [Did (action_of st) (Raised e)]
                          ++ [Caught e] ++ hevs ++ [Did (Do Close) o'])
                     = hevs ++ [Did (Do Close) o']).
    { rewrite app_assoc. apply (after_catch_at _ e).
      rewrite seen_app, caught_app, nothing_caught_in_suite, Hc. reflexivity. }
    rewrite Hafter.
    rewrite !seen_app, seen_did_ok, !caught_app, caught_ok, Hc,
      !count_calls_app, (count_calls_suite_prefix _ n i Hsuite),
      (count_calls_failure _ n i st e Hsuite Hn), !printed_append, Hp, Hk.
    destruct Hh as [e1|o].
    + split; [cbn; lia|]. split; [reflexivity|].
      exists k. cbn. reflexivity.
    + split; [cbn; lia|]. split.
      * unfold count_calls. cbn. rewrite String.eqb_refl. reflexivity.
      * exists k. destruct o; reflexivity.
  - destruct (failure_writes_nothing st e) as (_ & Hp & Hc).
    destruct (printed_prefix (body (script_of n)) i) as [k Hk].
    assert (Hnone : caught (seen (map did_ok (firstn i (body (script_of n)))
                                    ++ [Did (action_of st) (Raised e)]
                                    ++ [Did (Do Close) o'])) = [])
      by (rewrite !seen_app, !caught_app, nothing_caught_in_suite, Hc;
          reflexivity).
    rewrite (after_catch_none _ Hnone), Hnone.
    rewrite !seen_app, seen_did_ok, !count_calls_app,
      (count_calls_suite_prefix _ n i Hsuite),
      (count_calls_failure _ n i st e Hsuite Hn), !printed_append, Hp, Hk.
    split; [cbn; lia|]. split; [reflexivity|].
    exists k. reflexivity.
Qed.


(** X9.  For every script, world and history: a line that reports a page as
    loaded reaches standard output only for a visibility assertion that
    returned, so there are never more such lines than passed assertions; at
    most one passed assertion lacks its line, when the print of that line
    raised; and when no print raised the two numbers are equal.  The error
    line is never counted, whatever the message of the exception. *)
Theorem loaded_lines_are_backed_by_assertions
    (n : script_name) (w : world) (h : io_trace) :
  let evs := fst (run_io (script_of n) w h) in
  loaded_lines (seen evs) <= assertions_passed (seen evs) /\
  assertions_passed (seen evs) <= loaded_lines (seen evs) + 1 /\
  (print_raised evs = false ->
   loaded_lines (seen evs) = assertions_passed (seen evs)).
Proof.
  cbv zeta. pose proof (run_io_has_shape w (script_of n) h) as Hs.
  destruct (run_io (script_of n) w h) as [evs r]. cbn [fst snd] in *.
  destruct Hs as [o|i st e hevs hr o' Hn _ _ Hh|i st e o' Hn _ _].
  - destruct n; vm_compute; repeat split; auto.
  - destruct Hh as [e1|o]; destruct n;
      [ by_statement 14 i Hn st
          ltac:(vm_compute; repeat split; auto; discriminate)
      | by_statement 5 i Hn st
          ltac:(vm_compute; repeat split; auto; discriminate)
      | by_statement 5 i Hn st
          ltac:(vm_compute; repeat split; auto; discriminate)
      | by_statement 14 i Hn st
          ltac:(vm_compute; repeat split; auto; discriminate)
      | by_statement 5 i Hn st
          ltac:(vm_compute; repeat split; auto; discriminate)
      | by_statement 5 i Hn st
          ltac:(vm_compute; repeat split; auto; discriminate) ].
  - destruct n;
      [ by_statement 14 i Hn st
          ltac:(vm_compute; repeat split; auto; discriminate)
      | by_statement 5 i Hn st
          ltac:(vm_compute; repeat split; auto; discriminate)
      | by_statement 5 i Hn st
          ltac:(vm_compute; repeat split; auto; discriminate) ].
Qed.
